(** * pdf-renamer-gui: name proposal and text acquisition

    A shallow embedding of the two pipelines of the repository:

    - [CasePreserving] follows [src/src/pdf_renamer_gui.py]
      ([safe_filename], [extract_text_from_pdf], [ocr_first_pages],
      [propose_new_name]);
    - [UpperCase] follows [src/pdf_renamer_gui.py]
      ([clean], [extract_text], [extract_ocr], [guess_company],
      [guess_desc] and the per-file step of [App.scan]).

    Python strings are sequences of Unicode code points; they are modelled
    as lists of code points.  The classes [str.isspace] (also the regular
    expression class [\s] and the set removed by [str.strip]) and the line
    boundaries of [str.splitlines] are small and are written out in full.
    The tables behind [str.isalpha], [str.isdigit] and [str.upper] are a
    parameter of the development ([UnicodeData]); [basic_latin] is the
    instance that agrees with CPython on U+0000..U+007F and is used to run
    the definitions on concrete ASCII inputs. *)

From Stdlib Require Import String Ascii DecimalString.
From Stdlib Require Import List NArith ZArith Arith Bool Lia Permutation Sorted.
Import ListNotations.

Set Implicit Arguments.

(** ** Python strings *)

Definition pystr := list N.

(** A string literal of the source, as code points. *)
Definition lit (s : string) : pystr :=
  List.map N_of_ascii (list_ascii_of_string s).

Arguments lit s%_string.

Definition inN (lo hi c : N) : bool := (lo <=? c)%N && (c <=? hi)%N.

(** [Py_UNICODE_ISSPACE]: used by [str.strip], [str.isspace] and [\s]. *)
Definition isspace (c : N) : bool :=
  inN 9 13 c || inN 28 32 c || (c =? 133)%N || (c =? 160)%N
  || (c =? 5760)%N || inN 8192 8202 c || (c =? 8232)%N || (c =? 8233)%N
  || (c =? 8239)%N || (c =? 8287)%N || (c =? 12288)%N.

(** [Py_UNICODE_ISLINEBREAK]: the boundaries of [str.splitlines]. *)
Definition islinebreak (c : N) : bool :=
  inN 10 13 c || inN 28 30 c || (c =? 133)%N || (c =? 8232)%N
  || (c =? 8233)%N.

(** The tables of the Unicode database the source consults through
    [str.isalpha], [str.isdigit] and [str.upper] (the full upper-case
    mapping of one code point may be several code points). *)
Class UnicodeData := {
  isalpha : N -> bool;
  isdigit : N -> bool;
  toupper : N -> list N
}.

(** The tables restricted to Basic Latin: exact on U+0000..U+007F. *)
Definition basic_latin : UnicodeData := {|
  isalpha := fun c => inN 65 90 c || inN 97 122 c;
  isdigit := fun c => inN 48 57 c;
  toupper := fun c => if inN 97 122 c then [(c - 32)%N] else [c]
|}.

Definition SP : N := 32.
Definition LF : N := 10.
Definition CR : N := 13.
Definition DASH : N := 45.

Definition nonempty (s : pystr) : bool :=
  match s with [] => false | _ :: _ => true end.

Fixpoint str_eqb (a b : pystr) : bool :=
  match a, b with
  | [], [] => true
  | x :: a', y :: b' => (x =? y)%N && str_eqb a' b'
  | _, _ => false
  end.

(** [s.lstrip()], [s.rstrip()], [s.strip()] *)
Fixpoint lstrip (s : pystr) : pystr :=
  match s with
  | [] => []
  | c :: s' => if isspace c then lstrip s' else s
  end.

Definition rstrip (s : pystr) : pystr := rev (lstrip (rev s)).

Definition strip (s : pystr) : pystr := rstrip (lstrip s).

(** [sep.join(parts)] *)
Fixpoint join (sep : pystr) (parts : list pystr) : pystr :=
  match parts with
  | [] => []
  | [p] => p
  | p :: rest => p ++ sep ++ join sep rest
  end.

(** [s.splitlines()]: a line ends at a line boundary, ["\r\n"] counts as
    one boundary, and no empty last line is produced. *)
Fixpoint splitlines_from (cur : pystr) (s : pystr) : list pystr :=
  match s with
  | [] => if nonempty cur then [cur] else []
  | c :: s' =>
      if islinebreak c then
        cur :: match s' with
               | c' :: s'' =>
                   if (c =? CR)%N && (c' =? LF)%N
                   then splitlines_from [] s''
                   else splitlines_from [] s'
               | [] => []
               end
      else splitlines_from (cur ++ [c]) s'
  end.

Definition splitlines (s : pystr) : list pystr := splitlines_from [] s.

(** [re.sub(r"[cls]+", rep, s)] for a one-character replacement: every
    maximal run of characters of the class becomes one [rep].  [inrun]
    tells that the previous character belonged to the run being replaced. *)
Fixpoint sub_runs (cls : N -> bool) (rep : N) (inrun : bool) (s : pystr)
  : pystr :=
  match s with
  | [] => []
  | c :: s' =>
      if cls c then
        if inrun then sub_runs cls rep true s'
        else rep :: sub_runs cls rep true s'
      else c :: sub_runs cls rep false s'
  end.

(** [re.sub(r"[cls]", rep, s)]: every character of the class is replaced. *)
Definition sub_each (cls : N -> bool) (rep : N) (s : pystr) : pystr :=
  List.map (fun c => if cls c then rep else c) s.

(** The character class of both variants' first substitution: backslash,
    slash, colon, asterisk, question mark, double quote, angle brackets
    and vertical bar. *)
Definition reserved (c : N) : bool :=
  (c =? 92)%N || (c =? 47)%N || (c =? 58)%N || (c =? 42)%N || (c =? 63)%N
  || (c =? 34)%N || (c =? 60)%N || (c =? 62)%N || (c =? 124)%N.

(** [sub in s] *)
Fixpoint startswith (p s : pystr) : bool :=
  match p, s with
  | [], _ => true
  | x :: p', y :: s' => (x =? y)%N && startswith p' s'
  | _ :: _, [] => false
  end.

Fixpoint contains (sub s : pystr) : bool :=
  startswith sub s
  || match s with
     | [] => false
     | _ :: s' => contains sub s'
     end.

(** [re.findall(r"[A-Z]{3,}", s)]: the maximal runs of ASCII capitals of
    length at least 3, from left to right.  [cur] is the run being read. *)
Definition isAZ (c : N) : bool := inN 65 90 c.

Definition run3 (cur : pystr) : list pystr :=
  if 3 <=? length cur then [cur] else [].

Fixpoint findall_AZ3_from (cur : pystr) (s : pystr) : list pystr :=
  match s with
  | [] => run3 cur
  | c :: s' =>
      if isAZ c then findall_AZ3_from (cur ++ [c]) s'
      else run3 cur ++ findall_AZ3_from [] s'
  end.

Definition findall_AZ3 (s : pystr) : list pystr := findall_AZ3_from [] s.

(** [s.rsplit(" ", 1)[0]]: what precedes the last space, or [s] itself
    when it has no space. *)
Fixpoint after_first (c : N) (s : pystr) : option pystr :=
  match s with
  | [] => None
  | x :: s' => if (x =? c)%N then Some s' else after_first c s'
  end.

Definition rsplit1_head (s : pystr) : pystr :=
  match after_first SP (rev s) with
  | Some r => rev r
  | None => s
  end.

(** [sum(pred(ch) for ch in s)] *)
Definition count (pred : N -> bool) (s : pystr) : nat :=
  length (filter pred s).

(** [s.upper()] *)
Definition upper {U : UnicodeData} (s : pystr) : pystr :=
  flat_map toupper s.

(** ** [os.path] (POSIX flavour) *)

Definition SLASH : N := 47.
Definition DOT : N := 46.

(** [s.rfind(c)]: the last index of [c], or [-1]. *)
Fixpoint find_last (c : N) (s : pystr) (i best : Z) : Z :=
  match s with
  | [] => best
  | x :: s' => find_last c s' (i + 1)%Z (if (x =? c)%N then i else best)
  end.

Definition rfind (c : N) (s : pystr) : Z := find_last c s 0%Z (-1)%Z.

(** [p[i:j]] for indices that are not negative. *)
Definition slice (p : pystr) (i j : Z) : pystr :=
  firstn (Z.to_nat j - Z.to_nat i) (skipn (Z.to_nat i) p).

Definition os_path_basename (p : pystr) : pystr :=
  skipn (Z.to_nat (rfind SLASH p + 1)) p.

(** [os.path.splitext(p)[0]]: the extension starts at the last dot of the
    last component, unless that component has only dots before it. *)
Definition os_path_splitext_root (p : pystr) : pystr :=
  let sepIndex := rfind SLASH p in
  let dotIndex := rfind DOT p in
  if (sepIndex <? dotIndex)%Z then
    if existsb (fun x => negb (x =? DOT)%N) (slice p (sepIndex + 1) dotIndex)
    then firstn (Z.to_nat dotIndex) p
    else p
  else p.

Definition os_path_join (a b : pystr) : pystr :=
  if startswith [SLASH] b then b
  else if negb (nonempty a) || (rfind SLASH a =? Z.of_nat (length a) - 1)%Z
       then a ++ b
       else a ++ [SLASH] ++ b.

(** ** The libraries the pipelines call, and their effects

    PyMuPDF, Pillow and Tesseract are outside the repository: a [World]
    fixes what each of their calls does.  Every call either returns or
    raises an exception; all the exceptions these libraries raise derive
    from [Exception].  So do those of the [os] module: [OSError] stands
    for the ones other than [FileNotFoundError]. *)

Inductive exn :=
| FileNotFoundError
| FileDataError
| ValueError
| RuntimeError
| TesseractNotFoundError
| TesseractError
| OSError.

Inductive result (A : Type) :=
| Ok (a : A)
| Raise (e : exn).

Arguments Raise {A} e.

Record Pixmap := { width : N; height : N; samples : list N }.

Record Image := { im_size : N * N; im_data : list N }.

(** A loaded page: what [get_text] and [get_pixmap] do on it. *)
Record Page := {
  get_text : result pystr;
  get_pixmap : result Pixmap
}.

(** An opened document: what [load_page(i)] does for each page number. *)
Definition Document := list (result Page).

Record World := {
  fitz_open : pystr -> result Document;
  Image_frombytes : N * N -> list N -> result Image;
  image_to_string : Image -> result pystr
}.

(** Document handles are numbered in the order they are opened.  The
    history records the calls of the two acquisition functions and what
    happens to handles. *)
Definition handle := nat.

Inductive stage := Direct | Ocr.

Inductive event :=
| EvCall (f : stage) (path : pystr)
| EvOpen (h : handle) (path : pystr)
| EvClose (h : handle).

Definition history := list event.

(** A computation reads the world, extends the history, and returns or
    raises. *)
Definition M (A : Type) := World -> history -> result A * history.

Definition ret {A} (a : A) : M A := fun _ h => (Ok a, h).

Definition bind {A B} (m : M A) (k : A -> M B) : M B :=
  fun w h =>
    match m w h with
    | (Ok a, h') => k a w h'
    | (Raise e, h') => (Raise e, h')
    end.

Definition lift {A} (call : World -> result A) : M A :=
  fun w h => (call w, h).

Definition emit (e : event) : M unit := fun _ h => (Ok tt, h ++ [e]).

(** [try: body / except ...: handler]: every exception of [exn] is an
    [Exception], so [except Exception] and a bare [except] both catch it. *)
Definition try_except {A} (body : M A) (handler : exn -> M A) : M A :=
  fun w h =>
    match body w h with
    | (Ok a, h') => (Ok a, h')
    | (Raise e, h') => handler e w h'
    end.

Declare Scope monad_scope.
Delimit Scope monad_scope with monad.
Notation "x <- m ;; k" := (bind m (fun x => k))
  (at level 61, m at next level, right associativity) : monad_scope.
Notation "m ;;; k" := (bind m (fun _ => k))
  (at level 61, right associativity) : monad_scope.

Local Open Scope monad_scope.

(** [for i in range(n): acc = body i acc] *)
Fixpoint for_each {A S} (l : list A) (acc : S) (body : A -> S -> M S)
  : M S :=
  match l with
  | [] => ret acc
  | i :: l' => acc' <- body i acc ;; for_each l' acc' body
  end.

Definition for_range {S} (n : nat) (acc : S) (body : nat -> S -> M S)
  : M S :=
  for_each (seq 0 n) acc body.

(** [doc = fitz.open(path)] *)
Definition open_document (path : pystr) : M (handle * Document) :=
  fun w h =>
    match fitz_open w path with
    | Ok d => (Ok (length h, d), h ++ [EvOpen (length h) path])
    | Raise e => (Raise e, h)
    end.

(** [doc.load_page(i)] *)
Definition load_page (doc : handle * Document) (i : nat) : M Page :=
  lift (fun _ => nth i (snd doc) (Raise ValueError)).

(** [doc.close()] *)
Definition close (doc : handle * Document) : M unit :=
  emit (EvClose (fst doc)).

(** The handles a history leaves open. *)
Fixpoint live (h : history) (acc : list handle) : list handle :=
  match h with
  | [] => acc
  | EvOpen x _ :: h' => live h' (acc ++ [x])
  | EvClose x :: h' => live h' (List.remove Nat.eq_dec x acc)
  | EvCall _ _ :: h' => live h' acc
  end.

Definition open_handles (h : history) : list handle := live h [].

(** How often a stage was entered. *)
Definition enters (f : stage) (e : event) : bool :=
  match e, f with
  | EvCall Direct _, Direct => true
  | EvCall Ocr _, Ocr => true
  | _, _ => false
  end.

Definition calls (f : stage) (h : history) : nat :=
  length (filter (enters f) h).

(** ** [src/src/pdf_renamer_gui.py]: the case-preserving variant *)

Module CasePreserving.
Section WithTables.
Context {U : UnicodeData}.

Definition safe_filename (name : pystr) : pystr :=
  let name := strip name in
  let name := sub_each reserved DASH name in
  let name := sub_runs isspace SP false name in
  name.

(** Lines 24-28: the loop over the pages to read. *)
Definition text_pages (doc : handle * Document) (pages_to_read : nat)
  : M (list pystr) :=
  for_range pages_to_read []
    (fun i text_chunks =>
       page <- load_page doc i ;;
       txt <- lift (fun _ => get_text page) ;;
       if nonempty (strip txt) then ret (text_chunks ++ [txt])
       else ret text_chunks).

(** The body of the [try] of [extract_text_from_pdf]; the closing
    [join] and [strip] are pure and are done at its end. *)
Definition extract_text_from_pdf_body (pdf_path : pystr) (max_pages : nat)
  : M pystr :=
  doc <- open_document pdf_path ;;
  let pages_to_read := Nat.min (length (snd doc)) max_pages in
  text_chunks <- text_pages doc pages_to_read ;;
  close doc ;;;
  ret (strip (join [LF] text_chunks)).

Definition extract_text_from_pdf (pdf_path : pystr) (max_pages : nat)
  : M pystr :=
  emit (EvCall Direct pdf_path) ;;;
  try_except (extract_text_from_pdf_body pdf_path max_pages)
             (fun _ => ret []).

(** Lines 46-56: render each page at zoom 2 and recognise it. *)
Definition ocr_pages (doc : handle * Document) (pages_to_read : nat)
  : M (list pystr) :=
  for_range pages_to_read []
    (fun i ocr_text =>
       page <- load_page doc i ;;
       pix <- lift (fun _ => get_pixmap page) ;;
       img <- lift (fun w =>
                Image_frombytes w (width pix, height pix) (samples pix)) ;;
       txt <- lift (fun w => image_to_string w img) ;;
       if nonempty (strip txt) then ret (ocr_text ++ [txt])
       else ret ocr_text).

Definition ocr_first_pages_body (pdf_path : pystr) (max_pages : nat)
  : M pystr :=
  doc <- open_document pdf_path ;;
  let pages_to_read := Nat.min (length (snd doc)) max_pages in
  ocr_text <- ocr_pages doc pages_to_read ;;
  close doc ;;;
  ret (strip (join [LF] ocr_text)).

Definition ocr_first_pages (pdf_path : pystr) (max_pages : nat) : M pystr :=
  emit (EvCall Ocr pdf_path) ;;;
  try_except (ocr_first_pages_body pdf_path max_pages)
             (fun _ => ret []).

(** Lines 79-80: the stripped non-blank lines of at least 3 characters. *)
Definition retained_lines (text : pystr) : list pystr :=
  let lines :=
    List.map strip (filter (fun ln => nonempty (strip ln)) (splitlines text)) in
  filter (fun ln => 3 <=? length ln) lines.

Definition letters (ln : pystr) : nat := count isalpha ln.
Definition digits (ln : pystr) : nat := count isdigit ln.

(** The test of line 86. *)
Definition company_like (ln : pystr) : bool :=
  (6 <=? letters ln) && (digits ln <? letters ln).

(** Lines 82-88: [company] stays empty unless a line passes the test. *)
Fixpoint company_loop (lines : list pystr) : pystr :=
  match lines with
  | [] => []
  | ln :: rest => if company_like ln then ln else company_loop rest
  end.

(** Lines 90-96. *)
Fixpoint desc_loop (company : pystr) (lines : list pystr) : pystr :=
  match lines with
  | [] => []
  | ln :: rest =>
      if nonempty company && str_eqb ln company then desc_loop company rest
      else if 6 <=? length ln then ln
      else desc_loop company rest
  end.

Definition company_line (text : pystr) : pystr :=
  company_loop (firstn 30 (retained_lines text)).

Definition desc_line (text : pystr) : pystr :=
  desc_loop (company_line text) (firstn 60 (retained_lines text)).

(** Lines 101-102. *)
Definition company_token (text : pystr) : pystr :=
  strip (firstn 60 (company_line text)).

Definition desc_token (text : pystr) : pystr :=
  strip (firstn 80 (desc_line text)).

(** Lines 76-105: the name proposed for an acquired text. *)
Definition name_for_text (text base : pystr) : pystr :=
  if negb (nonempty text) then safe_filename base ++ lit ".pdf"
  else
    let company := company_line text in
    let desc := desc_line text in
    if negb (nonempty company) && negb (nonempty desc)
    then safe_filename base ++ lit ".pdf"
    else
      let company := company_token text in
      let desc := desc_token text in
      let new_base :=
        if nonempty company && nonempty desc
        then company ++ lit " - " ++ desc
        else if nonempty company then company else desc in
      safe_filename new_base ++ lit ".pdf".

(** Lines 72-74: direct extraction, then OCR of page 1 when it is empty. *)
Definition acquire_text (pdf_path : pystr) : M pystr :=
  text <- extract_text_from_pdf pdf_path 2 ;;
  if negb (nonempty text) then ocr_first_pages pdf_path 1 else ret text.

Definition base_of (pdf_path : pystr) : pystr :=
  os_path_splitext_root (os_path_basename pdf_path).

Definition propose_new_name (pdf_path : pystr) : M pystr :=
  let base := base_of pdf_path in
  text <- acquire_text pdf_path ;;
  ret (name_for_text text base).

End WithTables.
End CasePreserving.

(** ** [src/pdf_renamer_gui.py]: the upper-case variant *)

Module UpperCase.
Section WithTables.
Context {U : UnicodeData}.

Definition COMPANY_SHORT_MAP : list (pystr * pystr) :=
  [ (lit "AQ PACK (M) SDN BHD", lit "AQP");
    (lit "AQ PACK (PENANG) SDN BHD", lit "AQPP");
    (lit "TENAGA NASIONAL", lit "TNB");
    (lit "MAXIS", lit "MAXIS") ].

Definition MAX_COMPANY_LEN : nat := 20.
Definition MAX_DESC_LEN : nat := 60.

Definition clean (s : pystr) : pystr :=
  let s := upper s in
  let s := sub_runs reserved SP false s in
  let s := sub_runs isspace SP false s in
  strip s.

(** Lines 33-34. *)
Definition text_pages (doc : handle * Document) : M pystr :=
  for_range (Nat.min 2 (length (snd doc))) []
    (fun i text =>
       page <- load_page doc i ;;
       txt <- lift (fun _ => get_text page) ;;
       ret (text ++ txt)).

Definition extract_text_body (pdf : pystr) : M pystr :=
  doc <- open_document pdf ;;
  text <- text_pages doc ;;
  close doc ;;;
  ret (strip text).

Definition extract_text (pdf : pystr) : M pystr :=
  emit (EvCall Direct pdf) ;;;
  try_except (extract_text_body pdf) (fun _ => ret []).

(** Lines 45-48. *)
Definition ocr_pages (doc : handle * Document) : M pystr :=
  for_range (Nat.min 2 (length (snd doc))) []
    (fun i text =>
       page <- load_page doc i ;;
       pix <- lift (fun _ => get_pixmap page) ;;
       img <- lift (fun w =>
                Image_frombytes w (width pix, height pix) (samples pix)) ;;
       txt <- lift (fun w => image_to_string w img) ;;
       ret (text ++ txt)).

Definition extract_ocr_body (pdf : pystr) : M pystr :=
  doc <- open_document pdf ;;
  text <- ocr_pages doc ;;
  close doc ;;;
  ret (strip text).

Definition extract_ocr (pdf : pystr) : M pystr :=
  emit (EvCall Ocr pdf) ;;;
  try_except (extract_ocr_body pdf) (fun _ => ret []).

(** The loop of [guess_company] over the table, in insertion order. *)
Fixpoint short_name (table : list (pystr * pystr)) (text_u : pystr)
  : option pystr :=
  match table with
  | [] => None
  | (k, v) :: rest => if contains k text_u then Some v
                      else short_name rest text_u
  end.

Definition guess_company (text : pystr) : pystr :=
  let text_u := clean text in
  match short_name COMPANY_SHORT_MAP text_u with
  | Some v => v
  | None =>
      match findall_AZ3 text_u with
      | w :: _ => w
      | [] => lit "UNKNOWN"
      end
  end.

(** Line 65: the stripped lines of more than 8 characters. *)
Definition long_lines (text : pystr) : list pystr :=
  List.map strip (filter (fun l => 8 <? length (strip l)) (splitlines text)).

Definition guess_desc (text : pystr) : pystr :=
  let lines := long_lines text in
  match lines with
  | [] => lit "DOCUMENT"
  | l0 :: _ =>
      let s := clean l0 in
      if MAX_DESC_LEN <? length s
      then rsplit1_head (firstn MAX_DESC_LEN s)
      else s
  end.

(** Lines 125-127 of [App.scan]: the name built from the acquired text. *)
Definition name_for_text (text : pystr) : pystr :=
  let company := firstn MAX_COMPANY_LEN (guess_company text) in
  let desc := guess_desc text in
  company ++ lit " - " ++ desc ++ lit ".pdf".

(** Lines 121-123 of [App.scan]. *)
Definition acquire_text (path : pystr) : M pystr :=
  text <- extract_text path ;;
  if length text <? 50 then extract_ocr path else ret text.

(** One turn of the loop of [App.scan] for the directory entry [f] (whose
    name ends in [.pdf]): the row appended to [self.rows]. *)
Definition scan_entry (folder f : pystr) : M (pystr * pystr) :=
  let path := os_path_join folder f in
  text <- acquire_text path ;;
  let new := name_for_text text in
  ret (path, new).

End WithTables.
End UpperCase.

(** ** Running the definitions *)

Definition run {A} (m : M A) (w : World) : result A * history := m w [].

(** A world with no readable document and no OCR engine. *)
Definition empty_world : World := {|
  fitz_open := fun _ => Raise FileNotFoundError;
  Image_frombytes := fun _ _ => Raise ValueError;
  image_to_string := fun _ => Raise TesseractNotFoundError
|}.

(** ** What a proposed name must satisfy *)

Definition unreserved (s : pystr) : Prop :=
  Forall (fun c => reserved c = false) s.

Definition endswith (suffix s : pystr) : Prop :=
  exists stem, s = stem ++ suffix.

Definition wellformed_name (name : pystr) : Prop :=
  name <> [] /\ endswith (lit ".pdf") name /\ unreserved name.

(** ** Vocabulary for the effects *)

(** The computation, run in world [w] after history [h], returns [v]. *)
Definition returns {A} (m : M A) (w : World) (h : history) (v : A) : Prop :=
  exists h', m w h = (Ok v, h').

(** A computation that leaves the history as it found it. *)
Definition silent {A} (m : M A) : Prop := forall w h, snd (m w h) = h.


(** The shape shared by the four acquisition functions: note the call,
    then, under [try], open the document, run the page loop, close the
    document and return; any exception makes the result the empty string. *)
Definition guarded {S} (f : stage) (path : pystr)
    (loop : handle * Document -> M S) (fin : S -> pystr) : M pystr :=
  emit (EvCall f path) ;;;
  try_except
    (doc <- open_document path ;;
     x <- loop doc ;;
     close doc ;;;
     ret (fin x))
    (fun _ => ret []).

Definition joined (chunks : list pystr) : pystr := strip (join [LF] chunks).

(** A guarded function returns, and returns the empty string when its
    protected body raised. *)
Definition absorbs (fn body : M pystr) (entry : event)
    (w : World) (h : history) : Prop :=
  (exists v h', fn w h = (Ok v, h'))
  /\ (forall e h', body w (h ++ [entry]) = (Raise e, h')
                   -> fn w h = (Ok [], h')).

(** With no OCR engine, recognising any page raises. *)
Definition ocr_unavailable (w : World) : Prop :=
  forall img, exists e, image_to_string w img = Raise e.

(** ** Sample documents *)

(** A world whose every document has the given pages, with a working OCR
    engine that recognises nothing. *)
Definition world_of_pages (pages : Document) : World := {|
  fitz_open := fun _ => Ok pages;
  Image_frombytes := fun size data => Ok {| im_size := size; im_data := data |};
  image_to_string := fun _ => Ok []
|}.

(** A page with a text layer that renders to a blank picture. *)
Definition text_page (text : pystr) : result Page :=
  Ok {| get_text := Ok text;
        get_pixmap := Ok {| width := 2; height := 2; samples := [] |} |}.

(** A page that loads but whose text layer and rendering both fail. *)
Definition broken_page : result Page :=
  Ok {| get_text := Raise RuntimeError; get_pixmap := Raise RuntimeError |}.

(** ** Vocabulary for the heuristics *)

(** The test of the company loop, as a proposition. *)
Definition letter_heavy {U : UnicodeData} (ln : pystr) : Prop :=
  6 <= count isalpha ln /\ count isdigit ln < count isalpha ln.

(** What the description loop passes over: the company line and the lines
    of fewer than 6 characters. *)
Definition passed_over (company ln : pystr) : Prop :=
  ln = company \/ length ln < 6.


(** How [guess_desc] shortens a cleaned line. *)
Definition shorten (s : pystr) : pystr :=
  if UpperCase.MAX_DESC_LEN <? length s
  then rsplit1_head (firstn UpperCase.MAX_DESC_LEN s)
  else s.

(** Every white-space character is a single space that is not followed by
    another white-space character. *)
Fixpoint single_spaced (s : pystr) : Prop :=
  match s with
  | [] => True
  | c :: s' =>
      (isspace c = true ->
       c = SP /\ match s' with
                 | c' :: _ => isspace c' = false
                 | [] => True
                 end)
      /\ single_spaced s'
  end.

Definition head_not_space (s : pystr) : Prop :=
  match s with c :: _ => isspace c = false | [] => True end.

(** A scanned page on a machine without Tesseract. *)
Definition no_ocr_world : World := {|
  fitz_open := fun _ => Ok [text_page []];
  Image_frombytes := fun size data => Ok {| im_size := size; im_data := data |};
  image_to_string := fun _ => Raise TesseractNotFoundError
|}.

(** A line of 200 characters: two words and a run of 182 letters. *)
Definition long_line : pystr := lit "Monthly statement " ++ repeat 120%N 182.



(** ** The rest of [os.path] and the operating system

    The two applications list a directory, test paths and rename files.
    What the operating system answers at one moment (which paths are
    directories, what a directory lists, the absolute form of a path under
    the current working directory) is an [OS].  The file system changes
    when a file is renamed: a [FileSystem] fixes its states and what
    [os.path.exists] and [os.rename] do in each of them.  Like the
    libraries of a [World] it is outside the repository, and nothing is
    assumed of it: symbolic links, directories, hard links and the case of
    names are its own business. *)

(** [s.lstrip(c)] and [s.rstrip(c)] for one character. *)
Fixpoint lstrip_chr (c : N) (s : pystr) : pystr :=
  match s with
  | [] => []
  | x :: s' => if (x =? c)%N then lstrip_chr c s' else s
  end.

Definition rstrip_chr (c : N) (s : pystr) : pystr :=
  rev (lstrip_chr c (rev s)).

(** [os.path.dirname(p)]: what precedes the last slash, without its
    trailing slashes unless it is made of slashes only. *)
Definition os_path_dirname (p : pystr) : pystr :=
  let i := (rfind SLASH p + 1)%Z in
  let head := firstn (Z.to_nat i) p in
  if nonempty head && negb (forallb (fun x => (x =? SLASH)%N) head)
  then rstrip_chr SLASH head
  else head.

(** [s.endswith(suffix)] *)
Definition str_endswith (suffix s : pystr) : bool :=
  startswith (rev suffix) (rev s).

(** [a <= b] on strings: by code point, from the left. *)
Fixpoint str_leb (a b : pystr) : bool :=
  match a, b with
  | [], _ => true
  | _ :: _, [] => false
  | x :: a', y :: b' =>
      if (x <? y)%N then true
      else if (y <? x)%N then false
      else str_leb a' b'
  end.

(** [l.sort()] on a list of strings: the ascending arrangement. *)
Fixpoint insert_sorted (x : pystr) (l : list pystr) : list pystr :=
  match l with
  | [] => [x]
  | y :: l' => if str_leb x y then x :: l else y :: insert_sorted x l'
  end.

Definition list_sort (l : list pystr) : list pystr :=
  fold_right insert_sorted [] l.

(** [str(n)] for a count. *)
Definition str_of_nat (n : nat) : pystr :=
  lit (NilZero.string_of_uint (Nat.to_uint n)).

(** [str.lower] depends on the Unicode database and, for the Greek sigma,
    on the neighbours of a character: it is a parameter on whole strings.
    [basic_lower] is exact on ASCII strings. *)
Class LowerTable := { lower : pystr -> pystr }.

Definition basic_lower : LowerTable := {|
  lower := List.map (fun c => if inN 65 90 c then (c + 32)%N else c)
|}.

Record OS := {
  os_path_isdir : pystr -> bool;
  os_listdir : pystr -> result (list pystr);
  os_path_abspath : pystr -> pystr
}.

(** The states of the file system are its [disk]s.  On each disk
    [os_at] gives the answers of the operating system and [world_at] the
    documents that PyMuPDF finds; [os.path.exists] never raises;
    [os.rename] returns the disk it leaves, or raises and leaves the disk
    as it was. *)
Record FileSystem := {
  disk : Type;
  os_at : disk -> OS;
  world_at : disk -> World;
  os_path_exists : disk -> pystr -> bool;
  os_rename : disk -> pystr -> pystr -> result disk
}.

(** ** [src/src/pdf_renamer_gui.py]: the window of the case-preserving
    variant *)

Module CasePreservingApp.

(** A row of the table: the values [(original, new)] and the tag. *)
Record Row := { original : pystr; new_name : pystr; pdf_path : pystr }.

Record App := {
  folder_var : pystr;
  selected_files : list pystr;
  tree : list Row;
  info_var : pystr;
  shown : list (pystr * pystr)
}.

Definition set_tree (app : App) (rows : list Row) : App :=
  {| folder_var := folder_var app; selected_files := selected_files app;
     tree := rows; info_var := info_var app; shown := shown app |}.

Definition set_info (app : App) (text : pystr) : App :=
  {| folder_var := folder_var app; selected_files := selected_files app;
     tree := tree app; info_var := text; shown := shown app |}.

(** [messagebox.showinfo(title, text)] *)
Definition showinfo (app : App) (title text : pystr) : App :=
  {| folder_var := folder_var app; selected_files := selected_files app;
     tree := tree app; info_var := info_var app;
     shown := shown app ++ [(title, text)] |}.

Section WithTables.
Context {U : UnicodeData} {L : LowerTable}.

(** Lines 168-181. *)
Definition _get_input_pdfs (os : OS) (app : App) : result (list pystr) :=
  match selected_files app with
  | _ :: _ => Ok (selected_files app)
  | [] =>
      let folder := strip (folder_var app) in
      if negb (nonempty folder) || negb (os_path_isdir os folder) then Ok []
      else
        match os_listdir os folder with
        | Raise e => Raise e
        | Ok names =>
            let pdfs :=
              List.map (os_path_join folder)
                (filter (fun name => str_endswith (lit ".pdf") (lower name))
                        names) in
            Ok (list_sort pdfs)
        end
  end.

(** Lines 192-197: one row for each input, in order. *)
Definition scan_rows (pdfs : list pystr) : M (list Row * nat) :=
  for_each pdfs ([], 0)
    (fun pdf_path acc =>
       let original := os_path_basename pdf_path in
       new_name <- CasePreserving.propose_new_name pdf_path ;;
       ret (fst acc ++ [ {| original := original; new_name := new_name;
                            pdf_path := pdf_path |} ],
            snd acc + 1)).

(** Lines 183-200.  The window is an object that the method updates in
    place: the result is the window as the method leaves it, with the
    exception that escaped, if one did.  Only [os.listdir] can raise here,
    after the table was cleared; the loop cannot. *)
Definition on_scan (os : OS) (app : App) : M (App * option exn) :=
  let app := set_tree app [] in
  match _get_input_pdfs os app with
  | Raise e => ret (app, Some e)
  | Ok [] =>
      ret (set_info app
             (lit "No input yet. Choose a folder OR click 'Select PDFs'."),
           None)
  | Ok pdfs =>
      scanned <- scan_rows pdfs ;;
      let app := set_tree app (fst scanned) in
      let mode := match selected_files app with
                  | _ :: _ => lit "Selected files"
                  | [] => lit "Folder"
                  end in
      ret (set_info app
             (mode ++ lit ": scanned " ++ str_of_nat (snd scanned)
                ++ lit " PDF(s). Review names, then click Rename."),
           None)
  end.

End WithTables.

Record Counts := { renamed : nat; skipped : nat; errors : nat }.

(** Lines 212-231: the loop over the rows, with the disk it leaves. *)
Fixpoint rename_rows (fs : FileSystem) (rows : list Row) (d : disk fs)
    (c : Counts) : disk fs * Counts :=
  match rows with
  | [] => (d, c)
  | row :: rest =>
      let folder := os_path_dirname (pdf_path row) in
      let new_path := os_path_join folder (new_name row) in
      if str_eqb (os_path_abspath (os_at fs d) (pdf_path row))
                 (os_path_abspath (os_at fs d) new_path)
      then rename_rows fs rest d
             {| renamed := renamed c; skipped := skipped c + 1;
                errors := errors c |}
      else if os_path_exists fs d new_path
      then rename_rows fs rest d
             {| renamed := renamed c; skipped := skipped c + 1;
                errors := errors c |}
      else match os_rename fs d (pdf_path row) new_path with
           | Ok d' =>
               rename_rows fs rest d'
                 {| renamed := renamed c + 1; skipped := skipped c;
                    errors := errors c |}
           | Raise _ =>
               rename_rows fs rest d
                 {| renamed := renamed c; skipped := skipped c;
                    errors := errors c + 1 |}
           end
  end.

(** Line 233. *)
Definition done_message (c : Counts) : pystr :=
  lit "Renamed: " ++ str_of_nat (renamed c) ++ [LF]
    ++ lit "Skipped (same/exist): " ++ str_of_nat (skipped c) ++ [LF]
    ++ lit "Errors: " ++ str_of_nat (errors c).

Section Renaming.
Context {U : UnicodeData} {L : LowerTable}.

(** Lines 202-236: the window and the disk as the method leaves them, with
    the exception that escaped, if one did.  After the [Done] message the
    method calls [on_scan], which reads the disk as the renames left it. *)
Definition on_rename (fs : FileSystem) (app : App) (d : disk fs)
    (h : history) : App * option exn * disk fs * history :=
  match tree app with
  | [] =>
      (showinfo app (lit "Nothing to rename")
         (lit "No files in the list yet. Choose a folder or Select PDFs first."),
       None, d, h)
  | _ :: _ =>
      let done := rename_rows fs (tree app) d
                    {| renamed := 0; skipped := 0; errors := 0 |} in
      let d' := fst done in
      let app := showinfo app (lit "Done") (done_message (snd done)) in
      match on_scan (os_at fs d') app (world_at fs d') h with
      | (Ok (app', e), h') => (app', e, d', h')
      | (Raise e, h') => (app, Some e, d', h')
      end
  end.

End Renaming.

End CasePreservingApp.

(** ** [src/pdf_renamer_gui.py]: the window of the upper-case variant *)

Module UpperCaseApp.

Inductive box := Showerror | Showinfo.

Record App := {
  folder : pystr;
  rows : list (pystr * pystr);
  tree : list (pystr * pystr);
  shown : list (box * pystr * pystr)
}.

Definition set_rows (app : App) (rs tr : list (pystr * pystr)) : App :=
  {| folder := folder app; rows := rs; tree := tr; shown := shown app |}.

Definition show (app : App) (b : box) (title text : pystr) : App :=
  {| folder := folder app; rows := rows app; tree := tree app;
     shown := shown app ++ [(b, title, text)] |}.

Section WithTables.
Context {U : UnicodeData} {L : LowerTable}.

(** Lines 116-130: the loop over the directory entries. *)
Definition scan_entries (folder : pystr) (names : list pystr)
  : M (list (pystr * pystr) * list (pystr * pystr)) :=
  for_each names ([], [])
    (fun f acc =>
       if negb (str_endswith (lit ".pdf") (lower f)) then ret acc
       else
         entry <- UpperCase.scan_entry folder f ;;
         ret (fst acc ++ [entry], snd acc ++ [(f, snd entry)])).

(** Lines 107-130.  The window is an object that the method updates in
    place: the result is the window as the method leaves it, with the
    exception that escaped, if one did.  Only [os.listdir] can raise here,
    after the rows were cleared; the loop cannot. *)
Definition scan (os : OS) (app : App) : M (App * option exn) :=
  let app := set_rows app [] [] in
  let folder := folder app in
  if negb (os_path_isdir os folder)
  then ret (show app Showerror (lit "Error") (lit "Invalid folder"), None)
  else
    match os_listdir os folder with
    | Raise e => ret (app, Some e)
    | Ok names =>
        scanned <- scan_entries folder names ;;
        ret (set_rows app (fst scanned) (snd scanned), None)
    end.

End WithTables.

(** Lines 141-145: the loop over the rows; a failing [os.rename] is not
    caught. *)
Fixpoint rename_rows (fs : FileSystem) (folder : pystr)
    (rows : list (pystr * pystr)) (d : disk fs) : result unit * disk fs :=
  match rows with
  | [] => (Ok tt, d)
  | (old, new) :: rest =>
      let new_path := os_path_join folder new in
      if os_path_exists fs d new_path then rename_rows fs folder rest d
      else match os_rename fs d old new_path with
           | Ok d' => rename_rows fs folder rest d'
           | Raise e => (Raise e, d)
           end
  end.

Section Renaming.
Context {U : UnicodeData} {L : LowerTable}.

(** Lines 132-148 of [rename], for the answer [confirmed] of the user to
    [askyesno]: the window and the disk as they are left, with the
    exception that escaped, if one did.  When the loop completes the
    method shows [Done] and calls [scan], which reads the disk as the
    renames left it. *)
Definition rename (fs : FileSystem) (app : App) (confirmed : bool)
    (d : disk fs) (h : history) : App * option exn * disk fs * history :=
  match rows app with
  | [] =>
      (show app Showinfo (lit "Info") (lit "Nothing to rename. Scan first."),
       None, d, h)
  | _ :: _ =>
      if negb confirmed then (app, None, d, h)
      else
        match rename_rows fs (folder app) (rows app) d with
        | (Ok _, d') =>
            let app := show app Showinfo (lit "Done")
                         (lit "Renaming complete") in
            match scan (os_at fs d') app (world_at fs d') h with
            | (Ok (app', e), h') => (app', e, d', h')
            | (Raise e, h') => (app, Some e, d', h')
            end
        | (Raise e, d') => (app, Some e, d', h)
        end
  end.

End Renaming.

End UpperCaseApp.

(** ** Vocabulary for the windows *)

Definition capitals3 (r : pystr) : Prop :=
  3 <= length r /\ Forall (fun c => isAZ c = true) r.

(** A folder [/docs] with two PDF files and a note. *)
Definition docs_os : OS := {|
  os_path_isdir := fun p => str_eqb p (lit "/docs");
  os_listdir := fun p =>
    if str_eqb p (lit "/docs")
    then Ok [lit "b.pdf"; lit "notes.txt"; lit "A.PDF"]
    else Raise FileNotFoundError;
  os_path_abspath := fun p => p
|}.

(** The test of both applications on a directory entry. *)
Definition is_pdf {L : LowerTable} (name : pystr) : bool :=
  str_endswith (lit ".pdf") (lower name).

Definition ascending (a b : pystr) : Prop := str_leb a b = true.

(** What [on_scan] guarantees of a row. *)
Definition row_ok (r : CasePreservingApp.Row) : Prop :=
  CasePreservingApp.original r = os_path_basename (CasePreservingApp.pdf_path r)
  /\ wellformed_name (CasePreservingApp.new_name r).

Definition total (c : CasePreservingApp.Counts) : nat :=
  CasePreservingApp.renamed c + CasePreservingApp.skipped c
  + CasePreservingApp.errors c.

(** No row counted yet. *)
Definition no_count : CasePreservingApp.Counts :=
  {| CasePreservingApp.renamed := 0; CasePreservingApp.skipped := 0;
     CasePreservingApp.errors := 0 |}.

(** Where the case-preserving window sends the file of a row. *)
Definition target_of (row : CasePreservingApp.Row) : pystr :=
  os_path_join (os_path_dirname (CasePreservingApp.pdf_path row))
               (CasePreservingApp.new_name row).

(** [renamed_to fs rows n d d']: the disk [d'] is reached from [d] by [n]
    successful calls of [os.rename].  Each call moves the file of a row of
    the table to the target of that row, and is made on a disk on which
    [os.path.exists] reports the target absent and the absolute paths of
    source and target differ. *)
Inductive renamed_to (fs : FileSystem) (rows : list CasePreservingApp.Row)
  : nat -> disk fs -> disk fs -> Prop :=
| renamed_none (d : disk fs) : renamed_to fs rows 0 d d
| renamed_more (n : nat) (d d1 d2 : disk fs) (row : CasePreservingApp.Row) :
    In row rows ->
    os_path_abspath (os_at fs d) (CasePreservingApp.pdf_path row)
    <> os_path_abspath (os_at fs d) (target_of row) ->
    os_path_exists fs d (target_of row) = false ->
    os_rename fs d (CasePreservingApp.pdf_path row) (target_of row) = Ok d1 ->
    renamed_to fs rows n d1 d2 ->
    renamed_to fs rows (S n) d d2.

(** The same for the upper-case window, whose targets lie in the folder
    of the window. *)
Inductive moved_to (fs : FileSystem) (folder : pystr)
    (rows : list (pystr * pystr)) : disk fs -> disk fs -> Prop :=
| moved_none (d : disk fs) : moved_to fs folder rows d d
| moved_more (d d1 d2 : disk fs) (old new : pystr) :
    In (old, new) rows ->
    os_path_exists fs d (os_path_join folder new) = false ->
    os_rename fs d old (os_path_join folder new) = Ok d1 ->
    moved_to fs folder rows d1 d2 ->
    moved_to fs folder rows d d2.

(** The components of what the two rename methods return. *)
Definition window_after {App D : Type} (r : App * option exn * D * history)
  : App := fst (fst (fst r)).

Definition escaped {App D : Type} (r : App * option exn * D * history)
  : option exn := snd (fst (fst r)).

Definition disk_after {App D : Type} (r : App * option exn * D * history)
  : D := snd (fst r).

(** *** A sample file system

    One folder, in a file system of which nothing else is accessible.
    The folder holds regular files and symbolic links whose target is
    missing; a path is written [folder/name].  As on a POSIX system,
    [os.path.exists] follows links, so it does not report a dangling
    link, whereas [os.rename] acts on the entries themselves and replaces
    whatever entry has the name of the target. *)

Inductive node :=
| RegularFile (doc : result Document)
| DanglingLink.

Definition folder_disk := list (pystr * node).

Fixpoint node_of (name : pystr) (d : folder_disk) : option node :=
  match d with
  | [] => None
  | (n, x) :: d' => if str_eqb n name then Some x else node_of name d'
  end.

Definition without (name : pystr) (d : folder_disk) : folder_disk :=
  filter (fun e => negb (str_eqb (fst e) name)) d.

(** What a path designates. *)
Inductive place :=
| TheFolder
| Entry (name : pystr)
| Elsewhere.

Definition place_of (folder p : pystr) : place :=
  let prefix := folder ++ [SLASH] in
  let name := skipn (length prefix) p in
  if str_eqb p folder then TheFolder
  else if startswith prefix p && nonempty name
          && negb (existsb (N.eqb SLASH) name)
          && negb (str_eqb name [DOT]) && negb (str_eqb name [DOT; DOT])
  then Entry name
  else Elsewhere.

Definition folder_fs (folder : pystr) : FileSystem := {|
  disk := folder_disk;
  os_at := fun d => {|
    os_path_isdir := fun p =>
      match place_of folder p with TheFolder => true | _ => false end;
    os_listdir := fun p =>
      match place_of folder p with
      | TheFolder => Ok (List.map fst d)
      | Entry name =>
          match node_of name d with
          | Some (RegularFile _) => Raise OSError
          | _ => Raise FileNotFoundError
          end
      | Elsewhere => Raise OSError
      end;
    os_path_abspath := fun p => p
  |};
  world_at := fun d => {|
    fitz_open := fun p =>
      match place_of folder p with
      | Entry name =>
          match node_of name d with
          | Some (RegularFile doc) => doc
          | _ => Raise FileNotFoundError
          end
      | _ => Raise FileNotFoundError
      end;
    Image_frombytes :=
      fun size data => Ok {| im_size := size; im_data := data |};
    image_to_string := fun _ => Raise TesseractNotFoundError
  |};
  os_path_exists := fun d p =>
    match place_of folder p with
    | TheFolder => true
    | Entry name =>
        match node_of name d with
        | Some (RegularFile _) => true
        | _ => false
        end
    | Elsewhere => false
    end;
  os_rename := fun d old new =>
    match place_of folder old, place_of folder new with
    | TheFolder, TheFolder => Ok d
    | Entry o, Entry n =>
        match node_of o d with
        | None => Raise FileNotFoundError
        | Some x =>
            if str_eqb o n then Ok d
            else Ok ((n, x) :: without n (without o d))
        end
    | Entry o, TheFolder =>
        match node_of o d with
        | None => Raise FileNotFoundError
        | Some _ => Raise OSError
        end
    | _, _ => Raise OSError
    end
|}.

(** A file without a text layer, as PyMuPDF opens it. *)
Definition blank_pdf : node := RegularFile (Ok [text_page []]).

(** A file with a text layer of two lines. *)
Definition invoice_text : pystr :=
  lit "ACME Trading Company" ++ [LF]
    ++ lit "Invoice number 42 for the month of March".

Definition invoice_pdf : node := RegularFile (Ok [text_page invoice_text]).

(** The rows of the examples. *)
Definition row_of (path name : pystr) : CasePreservingApp.Row :=
  {| CasePreservingApp.original := os_path_basename path;
     CasePreservingApp.new_name := name;
     CasePreservingApp.pdf_path := path |}.



(** A counter more of errors. *)
Definition one_more_error (c : CasePreservingApp.Counts)
  : CasePreservingApp.Counts :=
  {| CasePreservingApp.renamed := CasePreservingApp.renamed c;
     CasePreservingApp.skipped := CasePreservingApp.skipped c;
     CasePreservingApp.errors := CasePreservingApp.errors c + 1 |}.

Definition one_more_skipped (c : CasePreservingApp.Counts)
  : CasePreservingApp.Counts :=
  {| CasePreservingApp.renamed := CasePreservingApp.renamed c;
     CasePreservingApp.skipped := CasePreservingApp.skipped c + 1;
     CasePreservingApp.errors := CasePreservingApp.errors c |}.

(** ** Facts on the string operations *)

Section StringFacts.

Lemma lstrip_suffix (s : pystr) : exists pre, s = pre ++ lstrip s.
Proof.
  induction s as [|c s IH]; simpl.
  - exists []. reflexivity.
  - destruct (isspace c).
    + destruct IH as [pre E]. exists (c :: pre). simpl. now rewrite <- E.
    + exists []. reflexivity.
Qed.

Lemma rstrip_prefix (s : pystr) : exists suf, s = rstrip s ++ suf.
Proof.
  unfold rstrip. destruct (lstrip_suffix (rev s)) as [pre E].
  exists (rev pre).
  rewrite <- rev_app_distr, <- E. now rewrite rev_involutive.
Qed.

Lemma strip_infix (s : pystr) : exists pre suf, s = pre ++ strip s ++ suf.
Proof.
  unfold strip.
  destruct (lstrip_suffix s) as [pre E].
  destruct (rstrip_prefix (lstrip s)) as [suf E'].
  exists pre, suf. now rewrite <- E', <- E.
Qed.

Lemma strip_length (s : pystr) : length (strip s) <= length s.
Proof.
  destruct (strip_infix s) as (pre & suf & E).
  rewrite E at 2. rewrite !length_app. lia.
Qed.

Lemma strip_Forall (P : N -> Prop) (s : pystr) :
  Forall P s -> Forall P (strip s).
Proof.
  intros H. destruct (strip_infix s) as (pre & suf & E).
  rewrite E in H. apply Forall_app in H as [_ H].
  now apply Forall_app in H as [H _].
Qed.

Lemma lstrip_idem (s : pystr) : lstrip (lstrip s) = lstrip s.
Proof.
  induction s as [|c s IH]; simpl; [reflexivity|].
  destruct (isspace c) eqn:E; [exact IH|].
  simpl. now rewrite E.
Qed.

Lemma rstrip_idem (s : pystr) : rstrip (rstrip s) = rstrip s.
Proof.
  unfold rstrip. now rewrite rev_involutive, lstrip_idem.
Qed.

Lemma rstrip_strip (s : pystr) : rstrip (strip s) = strip s.
Proof. unfold strip. apply rstrip_idem. Qed.

Lemma rstrip_snoc (s : pystr) (x : N) :
  isspace x = false -> rstrip (s ++ [x]) = s ++ [x].
Proof.
  intros H. unfold rstrip. rewrite rev_app_distr. simpl. rewrite H.
  simpl. now rewrite rev_involutive.
Qed.

Lemma lstrip_head (s : pystr) :
  match lstrip s with c :: _ => isspace c = false | [] => True end.
Proof.
  induction s as [|c s IH]; simpl; [exact I|].
  destruct (isspace c) eqn:E; [exact IH | exact E].
Qed.

Lemma sub_each_length cls rep (s : pystr) :
  length (sub_each cls rep s) = length s.
Proof. unfold sub_each. apply length_map. Qed.

Lemma sub_each_Forall cls rep (s : pystr) :
  cls rep = false -> Forall (fun c => cls c = false) (sub_each cls rep s).
Proof.
  intros H. unfold sub_each. apply Forall_forall. intros c Hc.
  apply in_map_iff in Hc as (x & <- & _).
  destruct (cls x) eqn:E; [exact H | exact E].
Qed.

Lemma sub_runs_length cls rep b (s : pystr) :
  length (sub_runs cls rep b s) <= length s.
Proof.
  revert b. induction s as [|c s IH]; intros b; simpl; [lia|].
  destruct (cls c); [destruct b|]; simpl;
    match goal with |- context [sub_runs cls rep ?x s] =>
      specialize (IH x) end; lia.
Qed.

Lemma sub_runs_Forall (P : N -> Prop) cls rep b (s : pystr) :
  P rep -> Forall P s -> Forall P (sub_runs cls rep b s).
Proof.
  intros Hrep. revert b. induction s as [|c s IH]; intros b H; simpl.
  - constructor.
  - inversion H as [|? ? Hc Hs]; subst.
    destruct (cls c); [destruct b|]; auto.
Qed.

Lemma sub_runs_class cls rep b (s : pystr) :
  cls rep = false -> Forall (fun c => cls c = false) (sub_runs cls rep b s).
Proof.
  intros Hrep. revert b. induction s as [|c s IH]; intros b; simpl.
  - constructor.
  - destruct (cls c) eqn:E; [destruct b|]; auto.
Qed.

Lemma firstn_Forall (P : N -> Prop) n (s : pystr) :
  Forall P s -> Forall P (firstn n s).
Proof.
  intros H. rewrite <- (firstn_skipn n s) in H.
  now apply Forall_app in H as [H _].
Qed.

Lemma after_first_Some c (s r : pystr) :
  after_first c s = Some r -> exists a, s = a ++ c :: r /\ ~ In c a.
Proof.
  revert r. induction s as [|x s IH]; intros r; simpl; [discriminate|].
  destruct (N.eqb_spec x c) as [->|Hne].
  - intros [= ->]. exists []. split; [reflexivity | intros []].
  - intros H. destruct (IH _ H) as (a & -> & Ha).
    exists (x :: a). split; [reflexivity|].
    intros [E|E]; [now apply Hne | now apply Ha].
Qed.

Lemma after_first_None c (s : pystr) :
  after_first c s = None -> ~ In c s.
Proof.
  induction s as [|x s IH]; simpl; [intros _ []|].
  destruct (N.eqb_spec x c) as [->|Hne]; [discriminate|].
  intros H [E|E]; [now apply Hne | now apply IH].
Qed.

(** [rsplit1_head] cuts at the last space when there is one. *)
Lemma rsplit1_head_cut (s : pystr) :
  In SP s ->
  exists tail, s = rsplit1_head s ++ SP :: tail /\ ~ In SP tail.
Proof.
  intros Hin. unfold rsplit1_head.
  destruct (after_first SP (rev s)) as [r|] eqn:E.
  - apply after_first_Some in E as (a & E & Ha).
    exists (rev a). split.
    + rewrite <- (rev_involutive s), E, rev_app_distr. simpl.
      now rewrite <- app_assoc.
    + intros H. apply Ha. now apply in_rev.
  - apply after_first_None in E. exfalso. apply E. now apply in_rev in Hin.
Qed.

Lemma rsplit1_head_whole (s : pystr) :
  ~ In SP s -> rsplit1_head s = s.
Proof.
  intros Hn. unfold rsplit1_head.
  destruct (after_first SP (rev s)) as [r|] eqn:E; [|reflexivity].
  apply after_first_Some in E as (a & E & _). exfalso. apply Hn.
  apply in_rev. rewrite E. apply in_or_app. right. now left.
Qed.

Lemma rsplit1_head_prefix (s : pystr) :
  exists tail, s = rsplit1_head s ++ tail.
Proof.
  destruct (in_dec N.eq_dec SP s) as [H|H].
  - destruct (rsplit1_head_cut s H) as (t & E & _). now exists (SP :: t).
  - exists []. now rewrite rsplit1_head_whole, app_nil_r.
Qed.

Lemma prefix_length (a b : pystr) : length a <= length (a ++ b).
Proof. rewrite length_app. lia. Qed.

Lemma prefix_Forall (P : N -> Prop) (a b : pystr) :
  Forall P (a ++ b) -> Forall P a.
Proof. intros H. now apply Forall_app in H as [H _]. Qed.

End StringFacts.

(** ** Facts on the effects *)

Section EffectFacts.

Lemma silent_ret {A} (a : A) : silent (ret a).
Proof. intros w h. reflexivity. Qed.

Lemma silent_lift {A} (call : World -> result A) : silent (lift call).
Proof. intros w h. reflexivity. Qed.

Lemma silent_bind {A B} (m : M A) (k : A -> M B) :
  silent m -> (forall a, silent (k a)) -> silent (bind m k).
Proof.
  intros Hm Hk w h. unfold bind. specialize (Hm w h).
  destruct (m w h) as [[a|e] h1]; simpl in *; subst h1.
  - apply Hk.
  - reflexivity.
Qed.

Lemma silent_for_each {A S} (l : list A) (body : A -> S -> M S) :
  (forall i acc, silent (body i acc)) ->
  forall acc, silent (for_each l acc body).
Proof.
  intros Hb. induction l as [|i l IH]; intros acc; simpl.
  - apply silent_ret.
  - apply silent_bind; [apply Hb | exact IH].
Qed.

Lemma calls_app f (h evs : history) :
  calls f (h ++ evs) = calls f h + calls f evs.
Proof. unfold calls. now rewrite filter_app, length_app. Qed.

Lemma guarded_outcome {S} (f : stage) (path : pystr)
    (loop : handle * Document -> M S) (fin : S -> pystr) :
  (forall doc, silent (loop doc)) ->
  forall w h,
    let h0 := h ++ [EvCall f path] in
    let k := length h0 in
    match fitz_open w path with
    | Raise _ => guarded f path loop fin w h = (Ok [], h0)
    | Ok d =>
        match fst (loop (k, d) w (h0 ++ [EvOpen k path])) with
        | Ok x =>
            guarded f path loop fin w h
            = (Ok (fin x), h0 ++ [EvOpen k path; EvClose k])
        | Raise _ =>
            guarded f path loop fin w h = (Ok [], h0 ++ [EvOpen k path])
        end
    end.
Proof.
  intros Hs w h h0 k.
  unfold guarded, bind, try_except, emit, open_document, close, ret.
  fold h0. fold k.
  destruct (fitz_open w path) as [d|e]; [|reflexivity].
  specialize (Hs (k, d) w (h0 ++ [EvOpen k path])).
  destruct (loop (k, d) w (h0 ++ [EvOpen k path])) as [[x|e] h1];
    simpl in *; subst h1.
  - now rewrite <- app_assoc.
  - reflexivity.
Qed.

Lemma guarded_returns {S} (f : stage) (path : pystr)
    (loop : handle * Document -> M S) (fin : S -> pystr) :
  (forall doc, silent (loop doc)) ->
  forall w h, exists v evs,
    guarded f path loop fin w h = (Ok v, h ++ EvCall f path :: evs)
    /\ calls Ocr evs = 0 /\ calls Direct evs = 0.
Proof.
  intros Hs w h. pose proof (guarded_outcome f path loop fin Hs w h) as H.
  cbv zeta in H. rewrite <- !app_assoc in H. simpl in H.
  destruct (fitz_open w path) as [d|e].
  - destruct (fst _) as [x|e] in H; rewrite H; eauto.
  - rewrite H. exists [], []. auto.
Qed.

End EffectFacts.

Ltac silence :=
  repeat first
    [ apply silent_ret
    | apply silent_lift
    | apply silent_for_each
    | apply silent_bind
    | progress intros
    | progress unfold for_range, load_page
    | match goal with |- silent (if ?b then _ else _) => destruct b end ].

(** ** The four acquisition functions have the guarded shape *)

Section Acquisition.

Lemma extract_text_from_pdf_shape path n :
  CasePreserving.extract_text_from_pdf path n
  = guarded Direct path
      (fun doc =>
         CasePreserving.text_pages doc (Nat.min (length (snd doc)) n))
      joined.
Proof. reflexivity. Qed.

Lemma ocr_first_pages_shape path n :
  CasePreserving.ocr_first_pages path n
  = guarded Ocr path
      (fun doc =>
         CasePreserving.ocr_pages doc (Nat.min (length (snd doc)) n))
      joined.
Proof. reflexivity. Qed.

Lemma extract_text_shape path :
  UpperCase.extract_text path
  = guarded Direct path UpperCase.text_pages strip.
Proof. reflexivity. Qed.

Lemma extract_ocr_shape path :
  UpperCase.extract_ocr path = guarded Ocr path UpperCase.ocr_pages strip.
Proof. reflexivity. Qed.

Lemma silent_text_pages_A doc n : silent (CasePreserving.text_pages doc n).
Proof. unfold CasePreserving.text_pages. silence. Qed.

Lemma silent_ocr_pages_A doc n : silent (CasePreserving.ocr_pages doc n).
Proof. unfold CasePreserving.ocr_pages. silence. Qed.

Lemma silent_text_pages_B doc : silent (UpperCase.text_pages doc).
Proof. unfold UpperCase.text_pages. silence. Qed.

Lemma silent_ocr_pages_B doc : silent (UpperCase.ocr_pages doc).
Proof. unfold UpperCase.ocr_pages. silence. Qed.


Lemma guarded_unfold {S} f path (loop : handle * Document -> M S) fin w h :
  guarded f path loop fin w h
  = match (doc <- open_document path ;;
           x <- loop doc ;;
           close doc ;;;
           ret (fin x)) w (h ++ [EvCall f path]) with
    | (Ok v, h') => (Ok v, h')
    | (Raise _, h') => (Ok [], h')
    end.
Proof. reflexivity. Qed.

Lemma guarded_absorbs {S} f path (loop : handle * Document -> M S) fin w h :
  absorbs (guarded f path loop fin)
          (doc <- open_document path ;;
           x <- loop doc ;;
           close doc ;;;
           ret (fin x))
          (EvCall f path) w h.
Proof.
  unfold absorbs. rewrite guarded_unfold.
  destruct ((doc <- open_document path ;; _) w _) as [[v|e] h1].
  - split; [eauto | discriminate].
  - split; [eauto | now intros e' h' [= _ ->]].
Qed.

Lemma ocr_pages_A_unavailable w doc n h :
  ocr_unavailable w ->
  match fst (CasePreserving.ocr_pages doc n w h) with
  | Ok chunks => chunks = []
  | Raise _ => True
  end.
Proof.
  intros Hw. unfold CasePreserving.ocr_pages, for_range.
  destruct n as [|n]; [reflexivity|].
  simpl. unfold bind at 1. unfold bind at 1. unfold load_page, lift.
  destruct (nth 0 (snd doc) (Raise ValueError)) as [page|e]; [|exact I].
  unfold bind at 1. destruct (get_pixmap page) as [pix|e]; [|exact I].
  unfold bind at 1. destruct (Image_frombytes w _ _) as [img|e]; [|exact I].
  unfold bind at 1. destruct (Hw img) as [e ->]. exact I.
Qed.

Lemma ocr_pages_B_unavailable w doc h :
  ocr_unavailable w ->
  match fst (UpperCase.ocr_pages doc w h) with
  | Ok text => text = []
  | Raise _ => True
  end.
Proof.
  intros Hw. unfold UpperCase.ocr_pages, for_range.
  destruct (Nat.min 2 (length (snd doc))) as [|n]; [reflexivity|].
  simpl. unfold bind at 1. unfold bind at 1. unfold load_page, lift.
  destruct (nth 0 (snd doc) (Raise ValueError)) as [page|e]; [|exact I].
  unfold bind at 1. destruct (get_pixmap page) as [pix|e]; [|exact I].
  unfold bind at 1. destruct (Image_frombytes w _ _) as [img|e]; [|exact I].
  unfold bind at 1. destruct (Hw img) as [e ->]. exact I.
Qed.

Lemma guarded_empty {S} f path (loop : handle * Document -> M S) fin w h :
  (forall doc, silent (loop doc)) ->
  (forall doc h', match fst (loop doc w h') with
                  | Ok x => fin x = []
                  | Raise _ => True
                  end) ->
  returns (guarded f path loop fin) w h [].
Proof.
  intros Hs Hl. pose proof (guarded_outcome f path loop fin Hs w h) as H.
  cbv zeta in H. unfold returns.
  destruct (fitz_open w path) as [d|e]; [|eauto].
  specialize (Hl (length (h ++ [EvCall f path]), d)
                 ((h ++ [EvCall f path])
                    ++ [EvOpen (length (h ++ [EvCall f path])) path])).
  destruct (fst _) as [x|e]; [rewrite Hl in H|]; eauto.
Qed.

Lemma guarded_unopenable {S} f path (loop : handle * Document -> M S) fin
    w h e :
  fitz_open w path = Raise e ->
  returns (guarded f path loop fin) w h [].
Proof.
  intros E. unfold returns. rewrite guarded_unfold.
  unfold bind at 1. unfold open_document. rewrite E. eauto.
Qed.

End Acquisition.

(** ** Text acquisition never raises *)

(** C2.  Whatever the libraries do on a path (the document cannot be
    opened, a page cannot be loaded, read, rendered or recognised, the
    document has no page, no OCR engine is installed), each of the four
    acquisition functions returns a string to its caller, and returns the
    empty string whenever the body it protects raised.  In particular an
    unopenable path and a document without pages give the empty string,
    and so does OCR when the engine is unavailable. *)
Theorem acquisition_never_raises :
  forall (w : World) (path : pystr) (max_pages : nat) (h : history),
    absorbs (CasePreserving.extract_text_from_pdf path max_pages)
            (CasePreserving.extract_text_from_pdf_body path max_pages)
            (EvCall Direct path) w h
    /\ absorbs (CasePreserving.ocr_first_pages path max_pages)
               (CasePreserving.ocr_first_pages_body path max_pages)
               (EvCall Ocr path) w h
    /\ absorbs (UpperCase.extract_text path)
               (UpperCase.extract_text_body path)
               (EvCall Direct path) w h
    /\ absorbs (UpperCase.extract_ocr path)
               (UpperCase.extract_ocr_body path)
               (EvCall Ocr path) w h
    /\ ((exists e, fitz_open w path = Raise e) \/ fitz_open w path = Ok [] ->
        returns (CasePreserving.extract_text_from_pdf path max_pages) w h []
        /\ returns (CasePreserving.ocr_first_pages path max_pages) w h []
        /\ returns (UpperCase.extract_text path) w h []
        /\ returns (UpperCase.extract_ocr path) w h [])
    /\ (ocr_unavailable w ->
        returns (CasePreserving.ocr_first_pages path max_pages) w h []
        /\ returns (UpperCase.extract_ocr path) w h []).
Proof.
  intros w path n h.
  repeat split.
  1-8: first
    [ apply (guarded_absorbs Direct path
               (fun doc => CasePreserving.text_pages doc
                             (Nat.min (length (snd doc)) n)) joined w h)
    | apply (guarded_absorbs Ocr path
               (fun doc => CasePreserving.ocr_pages doc
                             (Nat.min (length (snd doc)) n)) joined w h)
    | apply (guarded_absorbs Direct path UpperCase.text_pages strip w h)
    | apply (guarded_absorbs Ocr path UpperCase.ocr_pages strip w h) ].
  - destruct H as [[e E]|E].
    + rewrite extract_text_from_pdf_shape. eapply guarded_unopenable, E.
    + pose proof (guarded_outcome Direct path _ joined
                    (fun doc => silent_text_pages_A doc
                                  (Nat.min (length (snd doc)) n)) w h) as H.
      cbv zeta in H. rewrite E in H. simpl in H.
      rewrite extract_text_from_pdf_shape. unfold returns. eauto.
  - destruct H as [[e E]|E].
    + rewrite ocr_first_pages_shape. eapply guarded_unopenable, E.
    + pose proof (guarded_outcome Ocr path _ joined
                    (fun doc => silent_ocr_pages_A doc
                                  (Nat.min (length (snd doc)) n)) w h) as H.
      cbv zeta in H. rewrite E in H. simpl in H.
      rewrite ocr_first_pages_shape. unfold returns. eauto.
  - destruct H as [[e E]|E].
    + rewrite extract_text_shape. eapply guarded_unopenable, E.
    + pose proof (guarded_outcome Direct path _ strip
                    silent_text_pages_B w h) as H.
      cbv zeta in H. rewrite E in H. simpl in H.
      rewrite extract_text_shape. unfold returns. eauto.
  - destruct H as [[e E]|E].
    + rewrite extract_ocr_shape. eapply guarded_unopenable, E.
    + pose proof (guarded_outcome Ocr path _ strip
                    silent_ocr_pages_B w h) as H.
      cbv zeta in H. rewrite E in H. simpl in H.
      rewrite extract_ocr_shape. unfold returns. eauto.
  - rewrite ocr_first_pages_shape. apply guarded_empty.
    + intros doc. apply silent_ocr_pages_A.
    + intros doc h'.
      pose proof (@ocr_pages_A_unavailable w doc
                    (Nat.min (length (snd doc)) n) h' H) as P.
      destruct (fst _) as [x|e]; [now subst x | exact I].
  - rewrite extract_ocr_shape. apply guarded_empty.
    + apply silent_ocr_pages_B.
    + intros doc h'.
      pose proof (@ocr_pages_B_unavailable w doc h' H) as P.
      destruct (fst _) as [x|e]; [now subst x | exact I].
Qed.

(** A missing file, and a scanned page without an OCR engine: the empty
    string comes back each time. *)
Lemma acquisition_never_raises_witness :
  let path := lit "/docs/a.pdf" in
  (returns (CasePreserving.extract_text_from_pdf path 2) empty_world [] []
   /\ returns (UpperCase.extract_text path) empty_world [] [])
  /\ (returns (CasePreserving.ocr_first_pages path 2) no_ocr_world [] []
      /\ returns (UpperCase.extract_ocr path) no_ocr_world [] []).
Proof.
  cbv zeta. split.
  - destruct (acquisition_never_raises empty_world (lit "/docs/a.pdf") 2 [])
      as (_ & _ & _ & _ & H & _).
    destruct H as (H1 & _ & H3 & _).
    + left. exists FileNotFoundError. reflexivity.
    + split; assumption.
  - destruct (acquisition_never_raises no_ocr_world (lit "/docs/a.pdf") 2 [])
      as (_ & _ & _ & _ & _ & H).
    apply H. intros img. exists TesseractNotFoundError. reflexivity.
Defined.

(** ** Proposed names are well formed *)

Section NameFacts.
Context {U : UnicodeData}.

Lemma unreserved_check (s : pystr) :
  forallb (fun c => negb (reserved c)) s = true -> unreserved s.
Proof.
  intros H. apply Forall_forall. intros c Hc.
  rewrite forallb_forall in H. specialize (H c Hc).
  now destruct (reserved c).
Qed.

Lemma unreserved_app (a b : pystr) :
  unreserved a -> unreserved b -> unreserved (a ++ b).
Proof. intros Ha Hb. apply Forall_app. now split. Qed.

Lemma wellformed_pdf (stem : pystr) :
  unreserved stem -> wellformed_name (stem ++ lit ".pdf").
Proof.
  intros H. repeat split.
  - intros E. apply (f_equal (@length N)) in E.
    rewrite length_app in E. simpl in E. lia.
  - now exists stem.
  - apply unreserved_app; [exact H | now apply unreserved_check].
Qed.

Lemma safe_filename_unreserved (name : pystr) :
  unreserved (CasePreserving.safe_filename name).
Proof.
  unfold CasePreserving.safe_filename, unreserved.
  apply sub_runs_Forall; [reflexivity|].
  now apply sub_each_Forall.
Qed.

Lemma clean_unreserved (s : pystr) : unreserved (UpperCase.clean s).
Proof.
  unfold UpperCase.clean, unreserved.
  apply strip_Forall, sub_runs_Forall; [reflexivity|].
  now apply sub_runs_class.
Qed.

Lemma isAZ_unreserved (c : N) : isAZ c = true -> reserved c = false.
Proof.
  unfold isAZ, inN. intros H. apply andb_true_iff in H as [H1 H2].
  apply N.leb_le in H1, H2. unfold reserved.
  repeat match goal with
         | |- context [(c =? ?k)%N] =>
             replace (c =? k)%N with false
               by (symmetry; apply N.eqb_neq; lia)
         end.
  reflexivity.
Qed.

Lemma findall_AZ3_from_capitals (cur s : pystr) :
  Forall (fun c => isAZ c = true) cur ->
  Forall (Forall (fun c => isAZ c = true)) (findall_AZ3_from cur s).
Proof.
  revert cur. induction s as [|c s IH]; intros cur Hcur; simpl.
  - unfold run3. destruct (3 <=? length cur); repeat constructor; auto.
  - destruct (isAZ c) eqn:E.
    + apply IH. apply Forall_app. split; [exact Hcur|]. now constructor.
    + apply Forall_app. split.
      * unfold run3. destruct (3 <=? length cur); repeat constructor; auto.
      * apply IH. constructor.
Qed.

Lemma short_name_value table text_u v :
  UpperCase.short_name table text_u = Some v -> In v (List.map snd table).
Proof.
  induction table as [|[k x] table IH]; simpl; [discriminate|].
  destruct (contains k text_u).
  - intros [= ->]. now left.
  - intros H. right. now apply IH.
Qed.

Lemma guess_company_unreserved (text : pystr) :
  unreserved (UpperCase.guess_company text).
Proof.
  unfold UpperCase.guess_company.
  destruct (UpperCase.short_name _ _) as [v|] eqn:E.
  - apply short_name_value in E. simpl in E.
    repeat (destruct E as [<-|E]; [now apply unreserved_check|]).
    destruct E.
  - pose proof (@findall_AZ3_from_capitals [] (UpperCase.clean text)
                  (Forall_nil _)) as H.
    fold (findall_AZ3 (UpperCase.clean text)) in H.
    destruct (findall_AZ3 (UpperCase.clean text)) as [|r rest].
    + now apply unreserved_check.
    + inversion H as [|? ? Hr _]; subst.
      eapply Forall_impl; [|exact Hr]. apply isAZ_unreserved.
Qed.

Lemma guess_desc_unreserved (text : pystr) :
  unreserved (UpperCase.guess_desc text).
Proof.
  unfold UpperCase.guess_desc, UpperCase.long_lines.
  destruct (List.map strip _) as [|l0 rest].
  - now apply unreserved_check.
  - destruct (UpperCase.MAX_DESC_LEN <? _).
    + destruct (rsplit1_head_prefix
                  (firstn UpperCase.MAX_DESC_LEN (UpperCase.clean l0)))
        as [tail E].
      pose proof (firstn_Forall UpperCase.MAX_DESC_LEN
                    (clean_unreserved l0)) as H.
      rewrite E in H. now apply prefix_Forall in H.
    + apply clean_unreserved.
Qed.

Lemma name_for_text_A_wellformed (text base : pystr) :
  wellformed_name (CasePreserving.name_for_text text base).
Proof.
  unfold CasePreserving.name_for_text.
  repeat match goal with
         | |- context [if ?b then _ else _] => destruct b
         end;
    apply wellformed_pdf, safe_filename_unreserved.
Qed.

Lemma name_for_text_B_wellformed (text : pystr) :
  wellformed_name (UpperCase.name_for_text text).
Proof.
  unfold UpperCase.name_for_text.
  replace (firstn UpperCase.MAX_COMPANY_LEN (UpperCase.guess_company text)
             ++ lit " - " ++ UpperCase.guess_desc text ++ lit ".pdf")
    with ((firstn UpperCase.MAX_COMPANY_LEN (UpperCase.guess_company text)
             ++ lit " - " ++ UpperCase.guess_desc text) ++ lit ".pdf")
    by now rewrite <- !app_assoc.
  apply wellformed_pdf.
  repeat apply unreserved_app.
  - apply firstn_Forall, guess_company_unreserved.
  - now apply unreserved_check.
  - apply guess_desc_unreserved.
Qed.

Lemma acquire_text_A_returns w path h :
  exists text h', CasePreserving.acquire_text path w h = (Ok text, h').
Proof.
  unfold CasePreserving.acquire_text, bind.
  rewrite extract_text_from_pdf_shape.
  destruct (guarded_returns Direct path _ joined
              (fun doc => silent_text_pages_A doc
                            (Nat.min (length (snd doc)) 2)) w h)
    as (v & evs & -> & _).
  destruct (nonempty v); simpl.
  - unfold ret. eauto.
  - rewrite ocr_first_pages_shape.
    destruct (guarded_returns Ocr path _ joined
                (fun doc => silent_ocr_pages_A doc
                              (Nat.min (length (snd doc)) 1)) w
                (h ++ EvCall Direct path :: evs))
      as (v' & evs' & -> & _).
    eauto.
Qed.

Lemma acquire_text_B_returns w path h :
  exists text h', UpperCase.acquire_text path w h = (Ok text, h').
Proof.
  unfold UpperCase.acquire_text, bind.
  rewrite extract_text_shape.
  destruct (guarded_returns Direct path _ strip silent_text_pages_B w h)
    as (v & evs & -> & _).
  destruct (length v <? 50).
  - rewrite extract_ocr_shape.
    destruct (guarded_returns Ocr path _ strip silent_ocr_pages_B w
                (h ++ EvCall Direct path :: evs))
      as (v' & evs' & -> & _).
    eauto.
  - unfold ret. eauto.
Qed.

End NameFacts.

(** C1.  In both variants the proposed name is never empty, ends with
    [.pdf] and holds none of the reserved characters (backslash, slash,
    colon, asterisk, question mark, double quote, angle brackets, vertical
    bar), for every acquired text and every fallback base name; and the
    operation that proposes it always returns such a name, whatever the
    document is. *)
Theorem proposed_name_wellformed {U : UnicodeData} :
  forall (text base : pystr),
    wellformed_name (CasePreserving.name_for_text text base)
    /\ wellformed_name (UpperCase.name_for_text text)
    /\ (forall w path h, exists name h',
          CasePreserving.propose_new_name path w h = (Ok name, h')
          /\ wellformed_name name)
    /\ (forall w folder f h, exists path name h',
          UpperCase.scan_entry folder f w h = (Ok (path, name), h')
          /\ wellformed_name name).
Proof.
  intros text base. split; [|split; [|split]].
  - apply name_for_text_A_wellformed.
  - apply name_for_text_B_wellformed.
  - intros w path h. unfold CasePreserving.propose_new_name, bind.
    destruct (acquire_text_A_returns w path h) as (t & h' & ->).
    unfold ret. eexists _, _. split; [reflexivity|].
    apply name_for_text_A_wellformed.
  - intros w folder f h. unfold UpperCase.scan_entry, bind.
    destruct (acquire_text_B_returns w (os_path_join folder f) h)
      as (t & h' & ->).
    unfold ret. eexists _, _, _. split; [reflexivity|].
    apply name_for_text_B_wellformed.
Qed.

(** ** Empty acquired text *)

(** C3, as the code has it.  In the case-preserving variant an empty
    acquired text makes the proposal the sanitized fallback base followed
    by [.pdf] and nothing else, so [Invoice123] gives [Invoice123.pdf].
    The upper-case variant has no fallback base: there the proposal for an
    empty text is [UNKNOWN - DOCUMENT.pdf], whatever the file is called. *)
Theorem empty_text_proposal {U : UnicodeData} :
  forall base : pystr,
    CasePreserving.name_for_text [] base
    = CasePreserving.safe_filename base ++ lit ".pdf"
    /\ CasePreserving.name_for_text [] (lit "Invoice123")
       = lit "Invoice123.pdf"
    /\ (forall w path h h',
          CasePreserving.acquire_text path w h = (Ok [], h') ->
          CasePreserving.propose_new_name path w h
          = (Ok (CasePreserving.safe_filename (CasePreserving.base_of path)
                   ++ lit ".pdf"), h'))
    /\ UpperCase.name_for_text [] = lit "UNKNOWN - DOCUMENT.pdf"
    /\ (forall w folder f h h',
          UpperCase.acquire_text (os_path_join folder f) w h = (Ok [], h') ->
          UpperCase.scan_entry folder f w h
          = (Ok (os_path_join folder f, lit "UNKNOWN - DOCUMENT.pdf"), h')).
Proof.
  intros base. repeat split.
  - intros w path h h' E.
    unfold CasePreserving.propose_new_name, bind. now rewrite E.
  - intros w folder f h h' E.
    unfold UpperCase.scan_entry, bind. now rewrite E.
Qed.

(** A file that cannot be read at all has an empty acquired text: both
    variants at work on it. *)
Lemma empty_text_proposal_witness :
  fst (run (@CasePreserving.propose_new_name basic_latin
              (lit "/docs/Invoice123.pdf")) empty_world)
  = Ok (lit "Invoice123.pdf")
  /\ fst (run (@UpperCase.scan_entry basic_latin
                 (lit "/docs") (lit "Invoice123.pdf")) empty_world)
     = Ok (lit "/docs/Invoice123.pdf", lit "UNKNOWN - DOCUMENT.pdf").
Proof.
  destruct (@empty_text_proposal basic_latin (lit "Invoice123"))
    as (_ & _ & HA & _ & HB).
  split.
  - unfold run. erewrite HA; reflexivity.
  - unfold run. erewrite HB; reflexivity.
Defined.

(** C3 as stated fails in the upper-case variant: for the unreadable file
    [Invoice123.pdf] the acquired text is empty and the row that the scan
    records proposes [UNKNOWN - DOCUMENT.pdf], which is not the sanitized
    base name with the extension. *)
Lemma empty_text_upper_case_ignores_base :
  fst (run (@UpperCase.acquire_text (lit "/docs/Invoice123.pdf"))
           empty_world) = Ok []
  /\ fst (run (@UpperCase.scan_entry basic_latin
                 (lit "/docs") (lit "Invoice123.pdf")) empty_world)
     = Ok (lit "/docs/Invoice123.pdf", lit "UNKNOWN - DOCUMENT.pdf")
  /\ lit "UNKNOWN - DOCUMENT.pdf"
     <> @UpperCase.clean basic_latin (lit "Invoice123") ++ lit ".pdf"
  /\ lit "UNKNOWN - DOCUMENT.pdf"
     <> CasePreserving.safe_filename (lit "Invoice123") ++ lit ".pdf".
Proof.
  repeat split; try reflexivity; vm_compute; discriminate.
Qed.

(** ** When the OCR fallback runs *)

Lemma acquire_text_A_calls w path h :
  exists text h1 v h2,
    CasePreserving.extract_text_from_pdf path 2 w h = (Ok text, h1)
    /\ CasePreserving.acquire_text path w h = (Ok v, h2)
    /\ calls Ocr h2 = calls Ocr h + (if nonempty text then 0 else 1).
Proof.
  unfold CasePreserving.acquire_text, bind.
  rewrite extract_text_from_pdf_shape.
  destruct (guarded_returns Direct path _ joined
              (fun doc => silent_text_pages_A doc
                            (Nat.min (length (snd doc)) 2)) w h)
    as (t & evs & -> & Ho & _).
  exists t, (h ++ EvCall Direct path :: evs).
  destruct (nonempty t); simpl.
  - eexists _, _. repeat split.
    rewrite calls_app. change (EvCall Direct path :: evs)
      with ([EvCall Direct path] ++ evs).
    rewrite calls_app, Ho. simpl. lia.
  - rewrite ocr_first_pages_shape.
    destruct (guarded_returns Ocr path _ joined
                (fun doc => silent_ocr_pages_A doc
                              (Nat.min (length (snd doc)) 1)) w
                (h ++ EvCall Direct path :: evs))
      as (v' & evs' & -> & Ho' & _).
    eexists _, _. repeat split.
    rewrite !calls_app.
    change (EvCall Direct path :: evs) with ([EvCall Direct path] ++ evs).
    change (EvCall Ocr path :: evs') with ([EvCall Ocr path] ++ evs').
    rewrite !calls_app, Ho, Ho'. simpl. lia.
Qed.

Lemma acquire_text_B_calls w path h :
  exists text h1 v h2,
    UpperCase.extract_text path w h = (Ok text, h1)
    /\ UpperCase.acquire_text path w h = (Ok v, h2)
    /\ calls Ocr h2 = calls Ocr h + (if length text <? 50 then 1 else 0).
Proof.
  unfold UpperCase.acquire_text, bind.
  rewrite extract_text_shape.
  destruct (guarded_returns Direct path _ strip silent_text_pages_B w h)
    as (t & evs & -> & Ho & _).
  exists t, (h ++ EvCall Direct path :: evs).
  destruct (length t <? 50).
  - rewrite extract_ocr_shape.
    destruct (guarded_returns Ocr path _ strip silent_ocr_pages_B w
                (h ++ EvCall Direct path :: evs))
      as (v' & evs' & -> & Ho' & _).
    eexists _, _. repeat split.
    rewrite !calls_app.
    change (EvCall Direct path :: evs) with ([EvCall Direct path] ++ evs).
    change (EvCall Ocr path :: evs') with ([EvCall Ocr path] ++ evs').
    rewrite !calls_app, Ho, Ho'. simpl. lia.
  - eexists _, _. repeat split.
    rewrite calls_app. change (EvCall Direct path :: evs)
      with ([EvCall Direct path] ++ evs).
    rewrite calls_app, Ho. simpl. lia.
Qed.

(** C4, as the code has it.  For every document, the upper-case variant
    runs the OCR fallback exactly when direct extraction gave fewer than
    50 characters; the case-preserving variant runs it exactly when direct
    extraction gave the empty string.  In both, 50 characters or more of
    direct text mean that OCR is not run for the document. *)
Theorem ocr_fallback_condition :
  forall (w : World) (path : pystr) (h : history),
    (exists text h1 v h2,
        UpperCase.extract_text path w h = (Ok text, h1)
        /\ UpperCase.acquire_text path w h = (Ok v, h2)
        /\ (calls Ocr h2 = calls Ocr h + 1 <-> length text < 50)
        /\ (calls Ocr h2 = calls Ocr h <-> 50 <= length text))
    /\ (exists text h1 v h2,
        CasePreserving.extract_text_from_pdf path 2 w h = (Ok text, h1)
        /\ CasePreserving.acquire_text path w h = (Ok v, h2)
        /\ (calls Ocr h2 = calls Ocr h + 1 <-> text = [])
        /\ (calls Ocr h2 = calls Ocr h <-> text <> [])
        /\ (50 <= length text -> calls Ocr h2 = calls Ocr h)).
Proof.
  intros w path h. split.
  - destruct (acquire_text_B_calls w path h) as (t & h1 & v & h2 & E1 & E2 & C).
    exists t, h1, v, h2. repeat split; auto;
      destruct (Nat.ltb_spec (length t) 50); lia.
  - destruct (acquire_text_A_calls w path h) as (t & h1 & v & h2 & E1 & E2 & C).
    exists t, h1, v, h2. repeat split; auto;
      destruct t; simpl in *; try lia; try discriminate; try congruence.
Qed.

(** C4 as stated fails in the case-preserving variant: a document whose
    text layer is the 10 characters [Invoice 42] is shorter than 50
    characters, and OCR is not run for it. *)
Lemma short_text_skips_ocr :
  let w := world_of_pages [text_page (lit "Invoice 42")] in
  let path := lit "/docs/a.pdf" in
  fst (run (CasePreserving.extract_text_from_pdf path 2) w)
  = Ok (lit "Invoice 42")
  /\ length (lit "Invoice 42") < 50
  /\ calls Ocr (snd (run (CasePreserving.acquire_text path) w)) = 0
  /\ calls Ocr (snd (run (UpperCase.acquire_text path) w)) = 1.
Proof.
  repeat split. vm_compute. lia.
Qed.

(** ** Document handles *)

(** When the pages are read without an exception, the handle that was
    opened is closed before the function returns. *)
Lemma handle_closed_when_pages_read {S} f path
    (loop : handle * Document -> M S) fin w h d x :
  (forall doc, silent (loop doc)) ->
  fitz_open w path = Ok d ->
  fst (loop (length (h ++ [EvCall f path]), d) w
         ((h ++ [EvCall f path])
            ++ [EvOpen (length (h ++ [EvCall f path])) path])) = Ok x ->
  snd (guarded f path loop fin w h)
  = (h ++ [EvCall f path])
      ++ [EvOpen (length (h ++ [EvCall f path])) path;
          EvClose (length (h ++ [EvCall f path]))].
Proof.
  intros Hs E L. pose proof (guarded_outcome f path loop fin Hs w h) as H.
  cbv zeta in H. rewrite E, L in H. now rewrite H.
Qed.

(** When reading a page raises, the function returns without closing the
    handle it opened. *)
Lemma handle_left_open_when_page_fails {S} f path
    (loop : handle * Document -> M S) fin w h d e :
  (forall doc, silent (loop doc)) ->
  fitz_open w path = Ok d ->
  fst (loop (length (h ++ [EvCall f path]), d) w
         ((h ++ [EvCall f path])
            ++ [EvOpen (length (h ++ [EvCall f path])) path])) = Raise e ->
  guarded f path loop fin w h
  = (Ok [], (h ++ [EvCall f path])
              ++ [EvOpen (length (h ++ [EvCall f path])) path]).
Proof.
  intros Hs E L. pose proof (guarded_outcome f path loop fin Hs w h) as H.
  cbv zeta in H. now rewrite E, L in H.
Qed.

(** C8 does not hold of the code.  On a document that opens and whose
    first page cannot be read (or rendered), each of the four acquisition
    functions returns the empty string with the handle it opened still
    open: [doc.close()] is the last statement of the [try] block and is
    skipped by the exception.  On a readable document the handle is
    closed. *)
Theorem handle_not_released_on_failure :
  let bad := world_of_pages [broken_page] in
  let good := world_of_pages [text_page (lit "Invoice 42")] in
  let path := lit "/docs/a.pdf" in
  run (CasePreserving.extract_text_from_pdf path 2) bad
  = (Ok [], [EvCall Direct path; EvOpen 1 path])
  /\ open_handles
       (snd (run (CasePreserving.extract_text_from_pdf path 2) bad)) = [1]
  /\ open_handles
       (snd (run (CasePreserving.ocr_first_pages path 1) bad)) = [1]
  /\ open_handles (snd (run (UpperCase.extract_text path) bad)) = [1]
  /\ open_handles (snd (run (UpperCase.extract_ocr path) bad)) = [1]
  /\ open_handles
       (snd (run (CasePreserving.extract_text_from_pdf path 2) good)) = []
  /\ open_handles (snd (run (UpperCase.extract_text path) good)) = [].
Proof.
  cbv zeta. repeat split.
Qed.

(** ** The company line and the description line *)

Section LineFacts.
Context {U : UnicodeData}.

Lemma company_like_iff (ln : pystr) :
  CasePreserving.company_like ln = true <-> letter_heavy ln.
Proof.
  unfold CasePreserving.company_like, letter_heavy,
    CasePreserving.letters, CasePreserving.digits.
  rewrite andb_true_iff, Nat.leb_le, Nat.ltb_lt. tauto.
Qed.

Lemma company_like_false (ln : pystr) :
  CasePreserving.company_like ln = false <-> ~ letter_heavy ln.
Proof.
  rewrite <- company_like_iff.
  destruct (CasePreserving.company_like ln); split; congruence.
Qed.

Lemma company_loop_spec (lines : list pystr) :
  (exists before after,
      lines = before ++ CasePreserving.company_loop lines :: after
      /\ letter_heavy (CasePreserving.company_loop lines)
      /\ Forall (fun ln => ~ letter_heavy ln) before)
  \/ (CasePreserving.company_loop lines = []
      /\ Forall (fun ln => ~ letter_heavy ln) lines).
Proof.
  induction lines as [|ln rest IH]; simpl.
  - right. split; constructor.
  - destruct (CasePreserving.company_like ln) eqn:E.
    + left. exists [], rest. repeat split; try constructor;
        now apply company_like_iff.
    + apply company_like_false in E.
      destruct IH as [(before & after & E1 & E2 & E3)|[E1 E2]].
      * left. exists (ln :: before), after. repeat split.
        -- simpl. now rewrite <- E1.
        -- apply E2.
        -- apply E2.
        -- now constructor.
      * right. split; [exact E1 | now constructor].
Qed.

Lemma str_eqb_eq (a b : pystr) : str_eqb a b = true <-> a = b.
Proof.
  revert b. induction a as [|x a IH]; intros [|y b]; simpl;
    try (split; [discriminate | congruence]); [tauto|].
  rewrite andb_true_iff, N.eqb_eq, IH. split.
  - now intros [-> ->].
  - now intros [= -> ->].
Qed.

Lemma desc_loop_spec (company : pystr) (lines : list pystr) :
  (exists before after,
      lines = before ++ CasePreserving.desc_loop company lines :: after
      /\ 6 <= length (CasePreserving.desc_loop company lines)
      /\ CasePreserving.desc_loop company lines <> company
      /\ Forall (passed_over company) before)
  \/ (CasePreserving.desc_loop company lines = []
      /\ Forall (passed_over company) lines).
Proof.
  induction lines as [|ln rest IH]; cbn [CasePreserving.desc_loop].
  - right. split; constructor.
  - assert (Step : passed_over company ln ->
              (exists before after,
                  ln :: rest
                  = before ++ CasePreserving.desc_loop company rest :: after
                  /\ 6 <= length (CasePreserving.desc_loop company rest)
                  /\ CasePreserving.desc_loop company rest <> company
                  /\ Forall (passed_over company) before)
              \/ (CasePreserving.desc_loop company rest = []
                  /\ Forall (passed_over company) (ln :: rest))).
    { intros Hp. destruct IH as [(before & after & E1 & E2 & E3 & E4)|[E1 E2]].
      - left. exists (ln :: before), after. repeat split; auto.
        simpl. now rewrite <- E1.
      - right. split; [exact E1 | now constructor]. }
    destruct (nonempty company && str_eqb ln company) eqn:Skip.
    + apply andb_true_iff in Skip as [_ Skip]. apply str_eqb_eq in Skip.
      apply Step. now left.
    + destruct (Nat.leb_spec 6 (length ln)) as [Hlen|Hlen].
      * left. exists [], rest.
        split; [reflexivity|]. split; [exact Hlen|]. split; [|constructor].
        intros ->. destruct company as [|c company]; simpl in *; [lia|].
        assert (str_eqb (c :: company) (c :: company) = true) as E
          by now apply str_eqb_eq.
        simpl in E. congruence.
      * apply Step. now right.
Qed.

Lemma filter_first {A} (p : A -> bool) (l : list A) x rest :
  filter p l = x :: rest ->
  exists before after,
    l = before ++ x :: after /\ p x = true
    /\ Forall (fun y => p y = false) before.
Proof.
  induction l as [|y l IH]; simpl; [discriminate|].
  destruct (p y) eqn:E.
  - intros [= -> <-]. exists [], l. repeat split; auto.
  - intros H. destruct (IH H) as (before & after & -> & Hx & Hb).
    exists (y :: before), after. repeat split; auto.
Qed.

Lemma filter_none {A} (p : A -> bool) (l : list A) :
  filter p l = [] -> Forall (fun y => p y = false) l.
Proof.
  induction l as [|y l IH]; simpl; [constructor|].
  destruct (p y) eqn:E; [discriminate|]. intros H. constructor; auto.
Qed.

Lemma guess_desc_spec (text : pystr) :
  (exists before l0 after,
      splitlines text = before ++ l0 :: after
      /\ 8 < length (strip l0)
      /\ Forall (fun l => length (strip l) <= 8) before
      /\ UpperCase.guess_desc text = shorten (UpperCase.clean (strip l0)))
  \/ (Forall (fun l => length (strip l) <= 8) (splitlines text)
      /\ UpperCase.guess_desc text = lit "DOCUMENT").
Proof.
  unfold UpperCase.guess_desc, UpperCase.long_lines.
  destruct (filter (fun l => 8 <? length (strip l)) (splitlines text))
    as [|l0 rest] eqn:E.
  - right. split; [|reflexivity].
    apply filter_none in E. eapply Forall_impl; [|exact E].
    intros l H. simpl in H. apply Nat.ltb_ge in H. exact H.
  - left. apply filter_first in E as (before & after & E & Hx & Hb).
    exists before, l0, after. repeat split; auto.
    + now apply Nat.ltb_lt in Hx.
    + eapply Forall_impl; [|exact Hb].
      intros l H. simpl in H. apply Nat.ltb_ge in H. exact H.
Qed.

End LineFacts.

(** C5.  In the case-preserving variant the company line is the first of
    the first 30 retained lines that has at least 6 alphabetic characters
    and strictly more alphabetic characters than digits, and it is empty
    when there is no such line; so a line with at least as many digits as
    alphabetic characters is never the company line.  The company token of
    the name is that line cut to 60 characters. *)
Theorem company_line_first_letter_heavy {U : UnicodeData} :
  forall text : pystr,
    let lines := firstn 30 (CasePreserving.retained_lines text) in
    let company := CasePreserving.company_line text in
    ((exists before after,
         lines = before ++ company :: after
         /\ letter_heavy company
         /\ Forall (fun ln => ~ letter_heavy ln) before)
     \/ (company = [] /\ Forall (fun ln => ~ letter_heavy ln) lines))
    /\ (forall ln,
          count isalpha ln <= count isdigit ln ->
          ln <> [] -> company <> ln)
    /\ CasePreserving.company_token text = strip (firstn 60 company).
Proof.
  intros text lines company. split; [|split].
  - apply company_loop_spec.
  - intros ln Hcount Hne E. subst lines company.
    unfold CasePreserving.company_line in E.
    destruct (company_loop_spec
                (firstn 30 (CasePreserving.retained_lines text)))
      as [(_ & _ & _ & [_ H] & _)|[H _]];
      rewrite E in H; [lia | contradiction].
  - reflexivity.
Qed.

(** The digits-and-punctuation line of the specification is passed over
    and the next line is taken. *)
Lemma company_line_first_letter_heavy_witness :
  let text := lit "2024-03-15 00123456" ++ [LF] ++ lit "ACME Trading" in
  @CasePreserving.company_line basic_latin text = lit "ACME Trading"
  /\ @CasePreserving.company_line basic_latin text
     <> lit "2024-03-15 00123456".
Proof.
  cbv zeta. split; [reflexivity|].
  apply (proj1 (proj2 (@company_line_first_letter_heavy basic_latin
                  (lit "2024-03-15 00123456" ++ [LF] ++ lit "ACME Trading")))).
  - vm_compute. lia.
  - discriminate.
Defined.

(** C6, as the code has it.  In the case-preserving variant the
    description line is the first of the first 60 retained lines that has
    at least 6 characters and is not the company line, and it is empty
    when there is none.  In the upper-case variant it is taken from the
    first line of the whole text whose stripped length exceeds 8, company
    line or not: that line stripped, cleaned and shortened to at most 60
    characters; and it is [DOCUMENT] when there is no such line.  The
    description token of the case-preserving name is its description line
    cut to 80 characters. *)
Theorem description_line_choice {U : UnicodeData} :
  forall text : pystr,
    let lines := firstn 60 (CasePreserving.retained_lines text) in
    let company := CasePreserving.company_line text in
    let desc := CasePreserving.desc_line text in
    ((exists before after,
         lines = before ++ desc :: after
         /\ 6 <= length desc
         /\ desc <> company
         /\ Forall (passed_over company) before)
     \/ (desc = [] /\ Forall (passed_over company) lines))
    /\ ((exists before l0 after,
            splitlines text = before ++ l0 :: after
            /\ 8 < length (strip l0)
            /\ Forall (fun l => length (strip l) <= 8) before
            /\ UpperCase.guess_desc text
               = shorten (UpperCase.clean (strip l0)))
        \/ (Forall (fun l => length (strip l) <= 8) (splitlines text)
            /\ UpperCase.guess_desc text = lit "DOCUMENT"))
    /\ CasePreserving.desc_token text = strip (firstn 80 desc).
Proof.
  intros text lines company desc. split; [|split].
  - apply desc_loop_spec.
  - apply guess_desc_spec.
  - reflexivity.
Qed.

(** C6 as stated fails in the upper-case variant: the text below has two
    lines of at least 6 characters, neither of them the company token,
    and the description is neither of them nor empty: it is [DOCUMENT],
    because no line is longer than 8 characters. *)
Lemma short_lines_give_placeholder_description :
  let text := lit "ACME LTD" ++ [LF] ++ lit "Invoice" in
  CasePreserving.retained_lines text = [lit "ACME LTD"; lit "Invoice"]
  /\ @UpperCase.guess_company basic_latin text = lit "ACME"
  /\ @UpperCase.guess_desc basic_latin text = lit "DOCUMENT"
  /\ @CasePreserving.desc_line basic_latin text = lit "Invoice"
  /\ ~ In (@UpperCase.guess_desc basic_latin text)
          ([] :: CasePreserving.retained_lines text).
Proof.
  cbv zeta. repeat split. vm_compute.
  intros [H|[H|[H|[]]]]; discriminate H.
Qed.

(** ** Truncation *)

Section TruncationFacts.
Context {U : UnicodeData}.

Lemma sub_runs_single_spaced b (s : pystr) :
  single_spaced (sub_runs isspace SP b s)
  /\ (b = true -> head_not_space (sub_runs isspace SP b s)).
Proof.
  revert b. induction s as [|c s IH]; intros b; simpl.
  - split; [exact I | intros _; exact I].
  - destruct (isspace c) eqn:E.
    + destruct b.
      * apply IH.
      * split; [|discriminate]. simpl. split; [|apply IH].
        intros _. split; [reflexivity|].
        destruct (IH true) as [_ H]. specialize (H eq_refl).
        unfold head_not_space in H.
        destruct (sub_runs isspace SP true s); auto.
    + split.
      * simpl. split; [congruence | apply IH].
      * intros _. exact E.
Qed.

Lemma single_spaced_suffix (a b : pystr) :
  single_spaced (a ++ b) -> single_spaced b.
Proof.
  induction a as [|x a IH]; simpl; [auto|]. intros [_ H]. auto.
Qed.

Lemma single_spaced_prefix (a b : pystr) :
  single_spaced (a ++ b) -> single_spaced a.
Proof.
  induction a as [|x a IH]; simpl; [auto|]. intros [H1 H2]. split; [|auto].
  intros E. destruct (H1 E) as [-> H]. split; [reflexivity|].
  destruct a; [exact I | exact H].
Qed.

Lemma single_spaced_next (a b : pystr) (x y : N) :
  single_spaced (a ++ x :: y :: b) -> isspace x = true -> isspace y = false.
Proof.
  induction a as [|z a IH]; simpl.
  - intros [H _] E. now destruct (H E).
  - intros [_ H]. auto.
Qed.

Lemma single_spaced_space (s : pystr) (c : N) :
  single_spaced s -> In c s -> isspace c = true -> c = SP.
Proof.
  induction s as [|x s IH]; simpl; [intros _ []|].
  intros [H1 H2] [->|Hin] E; [now destruct (H1 E) | auto].
Qed.

Lemma strip_single_spaced (s : pystr) :
  single_spaced s -> single_spaced (strip s).
Proof.
  intros H. destruct (strip_infix s) as (pre & suf & E). rewrite E in H.
  apply single_spaced_suffix in H. now apply single_spaced_prefix in H.
Qed.

Lemma clean_single_spaced (s : pystr) : single_spaced (UpperCase.clean s).
Proof.
  unfold UpperCase.clean. apply strip_single_spaced, sub_runs_single_spaced.
Qed.

Lemma rstrip_fixed (s : pystr) :
  (forall t x, s = t ++ [x] -> isspace x = false) -> rstrip s = s.
Proof.
  intros H. destruct s as [|c s] using rev_ind; [reflexivity|].
  apply rstrip_snoc. now apply (H s c).
Qed.

(** A prefix of a single-spaced string that is cut just before a space
    has no trailing white space. *)
Lemma cut_before_space (d tail : pystr) :
  single_spaced (d ++ SP :: tail) -> rstrip d = d.
Proof.
  intros Hs. apply rstrip_fixed. intros t x ->.
  destruct (isspace x) eqn:E; [exfalso | reflexivity].
  rewrite <- app_assoc in Hs. simpl in Hs.
  apply single_spaced_next in Hs; [discriminate | exact E].
Qed.

Lemma shorten_cleaned (l : pystr) :
  let s := UpperCase.clean l in
  length (shorten s) <= UpperCase.MAX_DESC_LEN
  /\ rstrip (shorten s) = shorten s
  /\ (UpperCase.MAX_DESC_LEN < length s ->
      (In SP (firstn UpperCase.MAX_DESC_LEN s) ->
       exists rest, s = shorten s ++ SP :: rest)
      /\ (~ In SP (firstn UpperCase.MAX_DESC_LEN s) ->
          shorten s = firstn UpperCase.MAX_DESC_LEN s)).
Proof.
  intros s. unfold shorten.
  pose proof (clean_single_spaced l) as Hs. fold s in Hs.
  destruct (Nat.ltb_spec UpperCase.MAX_DESC_LEN (length s)) as [Hlen|Hlen].
  - set (t := firstn UpperCase.MAX_DESC_LEN s).
    assert (Ht : single_spaced t).
    { apply (@single_spaced_prefix t (skipn UpperCase.MAX_DESC_LEN s)).
      unfold t. now rewrite firstn_skipn. }
    assert (Hcut : In SP t ->
              exists tail, t = rsplit1_head t ++ SP :: tail)
      by (intros H; destruct (rsplit1_head_cut t H) as (tail & E & _);
          now exists tail).
    split; [|split; [|intros _; split]].
    + destruct (rsplit1_head_prefix t) as [tail E].
      apply (f_equal (@length N)) in E. rewrite length_app in E.
      pose proof (firstn_le_length UpperCase.MAX_DESC_LEN s) as L.
      fold t in L. lia.
    + destruct (in_dec N.eq_dec SP t) as [Hin|Hin].
      * destruct (Hcut Hin) as [tail E].
        apply (@cut_before_space _ tail). now rewrite <- E.
      * rewrite (rsplit1_head_whole t Hin).
        apply rstrip_fixed. intros t' x E.
        destruct (isspace x) eqn:Ex; [exfalso | reflexivity].
        apply Hin. rewrite E. apply in_or_app. right. left.
        apply (@single_spaced_space t x Ht); [|exact Ex].
        rewrite E. apply in_or_app. right. now left.
    + intros Hin. destruct (Hcut Hin) as [tail E].
      exists (tail ++ skipn UpperCase.MAX_DESC_LEN s).
      rewrite <- (firstn_skipn UpperCase.MAX_DESC_LEN s) at 1.
      fold t. rewrite E at 1. now rewrite <- app_assoc.
    + intros Hin. now apply rsplit1_head_whole.
  - split; [exact Hlen|]. split; [|lia].
    unfold s, UpperCase.clean. apply rstrip_strip.
Qed.

End TruncationFacts.

(** ** Length of the proposed name *)

Section LengthFacts.
Context {U : UnicodeData}.

Lemma safe_filename_length (name : pystr) :
  length (CasePreserving.safe_filename name) <= length name.
Proof.
  unfold CasePreserving.safe_filename.
  etransitivity; [apply sub_runs_length|].
  rewrite sub_each_length. apply strip_length.
Qed.

Lemma pdf_name_length (stem : pystr) :
  length (CasePreserving.safe_filename stem ++ lit ".pdf")
  <= length stem + 4.
Proof.
  rewrite length_app. pose proof (safe_filename_length stem).
  change (length (lit ".pdf")) with 4. lia.
Qed.

Lemma token_lengths (text : pystr) :
  length (CasePreserving.company_token text) <= 60
  /\ length (CasePreserving.desc_token text) <= 80.
Proof.
  unfold CasePreserving.company_token, CasePreserving.desc_token.
  split; (etransitivity; [apply strip_length | apply firstn_le_length]).
Qed.

Lemma nonempty_false (s : pystr) : nonempty s = false <-> s = [].
Proof. destruct s; simpl; split; congruence. Qed.

End LengthFacts.

Ltac bound_name text :=
  destruct (token_lengths text);
  repeat match goal with
         | |- context [if ?b then _ else _] => destruct b
         end;
  (etransitivity; [apply pdf_name_length|]);
  rewrite ?length_app; simpl; lia.

(** C10, as the code has it.  Sanitizing never lengthens a name.  In the
    case-preserving variant, when a company line or a description line is
    found the proposed name has at most 60 + 3 + 80 + 4 = 147 characters;
    when neither is found the proposal is the sanitized fallback base
    followed by [.pdf], of at most the length of the base plus 4. *)
Theorem proposed_name_length {U : UnicodeData} :
  forall text base : pystr,
    length (CasePreserving.safe_filename base) <= length base
    /\ (CasePreserving.company_line text <> []
        \/ CasePreserving.desc_line text <> [] ->
        length (CasePreserving.name_for_text text base) <= 147)
    /\ (CasePreserving.company_line text = [] ->
        CasePreserving.desc_line text = [] ->
        CasePreserving.name_for_text text base
        = CasePreserving.safe_filename base ++ lit ".pdf"
        /\ length (CasePreserving.name_for_text text base)
           <= length base + 4).
Proof.
  intros text base. split; [apply safe_filename_length|]. split.
  - intros Hfound. unfold CasePreserving.name_for_text.
    destruct (nonempty text) eqn:Et; simpl.
    + destruct (nonempty (CasePreserving.company_line text)) eqn:Ec;
        destruct (nonempty (CasePreserving.desc_line text)) eqn:Ed; simpl.
      * bound_name text.
      * bound_name text.
      * bound_name text.
      * apply nonempty_false in Ec, Ed. tauto.
    + apply nonempty_false in Et. subst text.
      destruct Hfound as [H|H]; now elim H.
  - intros Ec Ed. unfold CasePreserving.name_for_text.
    rewrite Ec, Ed. simpl.
    destruct (nonempty text); simpl; (split; [reflexivity|]);
      apply pdf_name_length.
Qed.

(** A text with a company line and a description line of 200 characters
    each stays within 147 characters, and a text with neither falls back
    on the base name. *)
Lemma proposed_name_length_witness :
  length (@CasePreserving.name_for_text basic_latin
            (long_line ++ [LF] ++ lit "Total " ++ long_line)
            (lit "scan0001")) <= 147
  /\ @CasePreserving.name_for_text basic_latin (lit "abcd") (lit "scan0001")
     = lit "scan0001.pdf".
Proof.
  split.
  - apply (proj1 (proj2 (@proposed_name_length basic_latin
                           (long_line ++ [LF] ++ lit "Total " ++ long_line)
                           (lit "scan0001")))).
    left. vm_compute. discriminate.
  - apply (proj1 (proj2 (proj2 (@proposed_name_length basic_latin
                                  (lit "abcd") (lit "scan0001")))
                    eq_refl eq_refl)).
Defined.

(** C10 as stated fails: the acquired text [abcd] is not empty, no line of
    it is a company or a description line, and for a base name of 150
    characters the proposed name has 154 characters. *)
Lemma fallback_name_exceeds_bound :
  let base := repeat 97%N 150 in
  lit "abcd" <> []
  /\ @CasePreserving.company_line basic_latin (lit "abcd") = []
  /\ @CasePreserving.desc_line basic_latin (lit "abcd") = []
  /\ @CasePreserving.name_for_text basic_latin (lit "abcd") base
     = base ++ lit ".pdf"
  /\ length (@CasePreserving.name_for_text basic_latin (lit "abcd") base)
     = 154
  /\ ~ length (@CasePreserving.name_for_text basic_latin (lit "abcd") base)
       <= 147.
Proof.
  cbv zeta. repeat split; try discriminate. vm_compute. lia.
Qed.

(** ** Sanitized names are the fixed points of the sanitizers *)

Section TidyFacts.
Context {U : UnicodeData}.

Lemma lstrip_snoc (a : pystr) (x : N) :
  isspace x = false -> lstrip (a ++ [x]) = lstrip a ++ [x].
Proof.
  intros H. induction a as [|c a IH]; simpl.
  - now rewrite H.
  - destruct (isspace c); [exact IH | reflexivity].
Qed.

Lemma rstrip_cons (c : N) (r : pystr) :
  isspace c = false -> rstrip (c :: r) = c :: rstrip r.
Proof.
  intros H. unfold rstrip. simpl. rewrite lstrip_snoc by exact H.
  now rewrite rev_app_distr.
Qed.

Lemma lstrip_fixed (s : pystr) : head_not_space s -> lstrip s = s.
Proof. destruct s as [|c s]; simpl; [reflexivity | now intros ->]. Qed.

Lemma rstrip_head (s : pystr) :
  head_not_space s -> head_not_space (rstrip s).
Proof.
  destruct s as [|c s]; simpl; [intros _; exact I|].
  intros H. now rewrite rstrip_cons.
Qed.

Lemma strip_head (s : pystr) : head_not_space (strip s).
Proof. unfold strip. apply rstrip_head, lstrip_head. Qed.

Lemma strip_idem (s : pystr) : strip (strip s) = strip s.
Proof.
  unfold strip at 1. rewrite (@lstrip_fixed (strip s) (strip_head s)).
  apply rstrip_strip.
Qed.

(** The last character of a string with no trailing white space. *)
Lemma rstrip_fixed_last (t : pystr) (x : N) :
  rstrip (t ++ [x]) = t ++ [x] -> isspace x = false.
Proof.
  unfold rstrip. rewrite rev_app_distr. simpl.
  destruct (isspace x) eqn:E; [|reflexivity].
  intros H. apply (f_equal (@length N)) in H.
  rewrite length_rev, length_app in H. simpl in H.
  destruct (lstrip_suffix (rev t)) as [pre P].
  apply (f_equal (@length N)) in P.
  rewrite length_rev, length_app in P. lia.
Qed.

Lemma reserved_not_space (c : N) : reserved c = true -> isspace c = false.
Proof.
  unfold reserved. rewrite !orb_true_iff, !N.eqb_eq.
  intros H. repeat destruct H as [H|H]; subst c; reflexivity.
Qed.

Lemma sub_each_space (c : N) :
  isspace (if reserved c then DASH else c) = isspace c.
Proof.
  destruct (reserved c) eqn:E; [|reflexivity].
  now rewrite (@reserved_not_space c E).
Qed.

Lemma sub_each_head (s : pystr) :
  head_not_space s -> head_not_space (sub_each reserved DASH s).
Proof.
  destruct s as [|c s]; simpl; [auto|]. now rewrite sub_each_space.
Qed.

Lemma sub_each_rstrip (s : pystr) :
  rstrip s = s -> rstrip (sub_each reserved DASH s) = sub_each reserved DASH s.
Proof.
  intros H. destruct s as [|x t _] using rev_ind; [reflexivity|].
  apply rstrip_fixed_last in H.
  unfold sub_each. rewrite map_app. simpl. apply rstrip_snoc.
  now rewrite sub_each_space.
Qed.

Lemma sub_each_fixed (s : pystr) :
  unreserved s -> sub_each reserved DASH s = s.
Proof.
  intros H. unfold sub_each. rewrite <- (map_id s) at 2.
  apply map_ext_in. intros c Hc.
  unfold unreserved in H. rewrite Forall_forall in H. now rewrite (H c Hc).
Qed.

Lemma sub_runs_snoc cls rep b (a : pystr) (x : N) :
  cls x = false ->
  sub_runs cls rep b (a ++ [x]) = sub_runs cls rep b a ++ [x].
Proof.
  intros H. revert b. induction a as [|c a IH]; intros b; simpl.
  - now rewrite H.
  - destruct (cls c); [destruct b|]; now rewrite IH.
Qed.

Lemma sub_runs_head (s : pystr) :
  head_not_space s -> head_not_space (sub_runs isspace SP false s).
Proof.
  destruct s as [|c s]; simpl; [auto|]. intros H. now rewrite H.
Qed.

Lemma sub_runs_rstrip (s : pystr) :
  rstrip s = s ->
  rstrip (sub_runs isspace SP false s) = sub_runs isspace SP false s.
Proof.
  intros H. destruct s as [|x t _] using rev_ind; [reflexivity|].
  apply rstrip_fixed_last in H.
  rewrite sub_runs_snoc by exact H. now apply rstrip_snoc.
Qed.

Lemma sub_runs_fixed b (s : pystr) :
  single_spaced s -> (b = true -> head_not_space s) ->
  sub_runs isspace SP b s = s.
Proof.
  revert b. induction s as [|c s IH]; intros b Hs Hb; simpl; [reflexivity|].
  destruct Hs as [Hc Hs]. destruct (isspace c) eqn:E.
  - destruct (Hc eq_refl) as [-> Hnext].
    destruct b; [specialize (Hb eq_refl); simpl in Hb; congruence|].
    f_equal. apply IH; [exact Hs|]. intros _.
    destruct s; [exact I | exact Hnext].
  - f_equal. apply IH; [exact Hs | discriminate].
Qed.

Lemma strip_fixed_iff (s : pystr) :
  strip s = s <-> head_not_space s /\ rstrip s = s.
Proof.
  split.
  - intros H. split.
    + rewrite <- H. apply strip_head.
    + rewrite <- H. apply rstrip_strip.
  - intros [H1 H2]. unfold strip. now rewrite lstrip_fixed.
Qed.

Lemma safe_filename_tidy (name : pystr) :
  let out := CasePreserving.safe_filename name in
  unreserved out /\ single_spaced out /\ strip out = out.
Proof.
  cbv zeta. split; [apply safe_filename_unreserved|].
  split; [apply sub_runs_single_spaced|].
  apply strip_fixed_iff. unfold CasePreserving.safe_filename. split.
  - apply sub_runs_head, sub_each_head, strip_head.
  - apply sub_runs_rstrip, sub_each_rstrip, rstrip_strip.
Qed.

Lemma safe_filename_fixed (name : pystr) :
  unreserved name -> single_spaced name -> strip name = name ->
  CasePreserving.safe_filename name = name.
Proof.
  intros Hu Hs Ht. unfold CasePreserving.safe_filename.
  rewrite Ht, (@sub_each_fixed name Hu).
  apply sub_runs_fixed; [exact Hs | discriminate].
Qed.

End TidyFacts.

(** X1.  The names [safe_filename] leaves unchanged are exactly the names
    without a reserved character, without leading or trailing white space
    and whose white space is single spaces; and every name it returns is
    one of them. *)
Theorem safe_filename_fixed_points :
  forall name : pystr,
    (CasePreserving.safe_filename name = name
     <-> unreserved name /\ single_spaced name /\ strip name = name)
    /\ (let out := CasePreserving.safe_filename name in
        unreserved out /\ single_spaced out /\ strip out = out).
Proof.
  intros name. split; [|apply safe_filename_tidy]. split.
  - intros H. rewrite <- H. apply safe_filename_tidy.
  - intros (Hu & Hs & Ht). now apply safe_filename_fixed.
Qed.

(** X2.  Sanitizing twice is sanitizing once: a proposed base name that is
    sanitized again (for instance on a second scan of a renamed file) does
    not change. *)
Theorem safe_filename_idempotent :
  forall name : pystr,
    CasePreserving.safe_filename (CasePreserving.safe_filename name)
    = CasePreserving.safe_filename name.
Proof.
  intros name.
  destruct (safe_filename_tidy name) as (Hu & Hs & Ht).
  now apply safe_filename_fixed.
Qed.

(** X3.  Whatever the text and the Unicode tables, [clean] returns a
    string without reserved characters, without leading or trailing white
    space, and whose only white space is single spaces. *)
Theorem clean_is_tidy {U : UnicodeData} :
  forall s : pystr,
    unreserved (UpperCase.clean s)
    /\ single_spaced (UpperCase.clean s)
    /\ strip (UpperCase.clean s) = UpperCase.clean s.
Proof.
  intros s. split; [apply clean_unreserved|].
  split; [apply clean_single_spaced|].
  unfold UpperCase.clean. apply strip_idem.
Qed.

(** ** The company token and the length of the upper-case name *)

Section CompanyFacts.
Context {U : UnicodeData}.

Lemma run3_capitals (cur : pystr) :
  Forall (fun c => isAZ c = true) cur -> Forall capitals3 (run3 cur).
Proof.
  intros H. unfold run3.
  destruct (Nat.leb_spec 3 (length cur)); repeat constructor; auto.
Qed.

Lemma findall_AZ3_from_runs (cur s : pystr) :
  Forall (fun c => isAZ c = true) cur ->
  Forall capitals3 (findall_AZ3_from cur s).
Proof.
  revert cur. induction s as [|c s IH]; intros cur Hcur; simpl.
  - now apply run3_capitals.
  - destruct (isAZ c) eqn:E.
    + apply IH. apply Forall_app. split; [exact Hcur | now constructor].
    + apply Forall_app. split; [now apply run3_capitals|].
      apply IH. constructor.
Qed.

Lemma capitals3_check (r : pystr) :
  (3 <=? length r) && forallb isAZ r = true -> capitals3 r.
Proof.
  intros H. apply andb_true_iff in H as [H1 H2]. split.
  - now apply Nat.leb_le.
  - apply Forall_forall. now apply forallb_forall.
Qed.

Lemma guess_company_capitals (text : pystr) :
  capitals3 (UpperCase.guess_company text).
Proof.
  unfold UpperCase.guess_company.
  destruct (UpperCase.short_name _ _) as [v|] eqn:E.
  - apply short_name_value in E. simpl in E.
    repeat (destruct E as [<-|E]; [now apply capitals3_check|]).
    destruct E.
  - pose proof (@findall_AZ3_from_runs [] (UpperCase.clean text)
                  (Forall_nil _)) as H.
    fold (findall_AZ3 (UpperCase.clean text)) in H.
    destruct (findall_AZ3 (UpperCase.clean text)) as [|r rest].
    + now apply capitals3_check.
    + now inversion H.
Qed.

Lemma guess_desc_length (text : pystr) :
  length (UpperCase.guess_desc text) <= 60.
Proof.
  unfold UpperCase.guess_desc.
  destruct (UpperCase.long_lines text) as [|l0 rest].
  - simpl. lia.
  - apply (shorten_cleaned l0).
Qed.

End CompanyFacts.

(** X4.  Whatever the text, [guess_company] returns at least 3 characters
    and only ASCII capital letters: a short code of the table, the first
    run of three or more capitals of the cleaned text, or [UNKNOWN]. *)
Theorem guess_company_is_capitals {U : UnicodeData} :
  forall text : pystr,
    3 <= length (UpperCase.guess_company text)
    /\ Forall (fun c => isAZ c = true) (UpperCase.guess_company text)
    /\ (In (UpperCase.guess_company text)
           (List.map snd UpperCase.COMPANY_SHORT_MAP)
        \/ In (UpperCase.guess_company text)
              (findall_AZ3 (UpperCase.clean text))
        \/ UpperCase.guess_company text = lit "UNKNOWN").
Proof.
  intros text. destruct (guess_company_capitals text) as [H1 H2].
  split; [exact H1|]. split; [exact H2|].
  unfold UpperCase.guess_company.
  destruct (UpperCase.short_name _ _) as [v|] eqn:E.
  - left. now apply short_name_value in E.
  - destruct (findall_AZ3 (UpperCase.clean text)) as [|r rest].
    + right. right. reflexivity.
    + right. left. now left.
Qed.

(** X5.  In the upper-case variant every proposed name has between 10 and
    87 characters: 3 to 20 capitals for the company, the separator, at
    most 60 characters of description and the extension. *)
Theorem upper_case_name_length {U : UnicodeData} :
  forall text : pystr,
    10 <= length (UpperCase.name_for_text text) <= 87
    /\ 3 <= length (firstn UpperCase.MAX_COMPANY_LEN
                      (UpperCase.guess_company text)) <= 20.
Proof.
  intros text. unfold UpperCase.name_for_text.
  rewrite !length_app, length_firstn.
  destruct (guess_company_capitals text) as [H _].
  pose proof (guess_desc_length text) as D.
  change (length (lit " - ")) with 3. change (length (lit ".pdf")) with 4.
  unfold UpperCase.MAX_COMPANY_LEN. lia.
Qed.

(** ** Where the tokens are cut *)

Section CutFacts.
Context {U : UnicodeData}.

Lemma firstn_In {A} n (l : list A) x : In x (firstn n l) -> In x l.
Proof.
  intros H. rewrite <- (firstn_skipn n l). apply in_or_app. now left.
Qed.

Lemma retained_line_stripped (text ln : pystr) :
  In ln (CasePreserving.retained_lines text) -> strip ln = ln.
Proof.
  unfold CasePreserving.retained_lines. intros H.
  apply filter_In in H as [H _]. apply in_map_iff in H as (x & <- & _).
  apply strip_idem.
Qed.

Lemma company_loop_member (lines : list pystr) :
  CasePreserving.company_loop lines = []
  \/ In (CasePreserving.company_loop lines) lines.
Proof.
  destruct (company_loop_spec lines) as [(before & after & E & _)|[E _]].
  - right. rewrite E at 2. apply in_or_app. right. now left.
  - now left.
Qed.

Lemma desc_loop_member (company : pystr) (lines : list pystr) :
  CasePreserving.desc_loop company lines = []
  \/ In (CasePreserving.desc_loop company lines) lines.
Proof.
  destruct (desc_loop_spec company lines)
    as [(before & after & E & _)|[E _]].
  - right. rewrite E at 2. apply in_or_app. right. now left.
  - now left.
Qed.

Lemma company_line_stripped (text : pystr) :
  strip (CasePreserving.company_line text) = CasePreserving.company_line text.
Proof.
  unfold CasePreserving.company_line.
  destruct (company_loop_member
              (firstn 30 (CasePreserving.retained_lines text))) as [->|H].
  - reflexivity.
  - apply firstn_In in H. now apply (retained_line_stripped text).
Qed.

Lemma desc_line_stripped (text : pystr) :
  strip (CasePreserving.desc_line text) = CasePreserving.desc_line text.
Proof.
  unfold CasePreserving.desc_line.
  destruct (desc_loop_member (CasePreserving.company_line text)
              (firstn 60 (CasePreserving.retained_lines text))) as [->|H].
  - reflexivity.
  - apply firstn_In in H. now apply (retained_line_stripped text).
Qed.

(** Cutting a stripped line leaves white space at the end only. *)
Lemma strip_cut n (line : pystr) :
  strip line = line -> strip (firstn n line) = rstrip (firstn n line).
Proof.
  intros H. apply strip_fixed_iff in H as [H _]. unfold strip.
  rewrite lstrip_fixed; [reflexivity|].
  destruct line as [|c line], n as [|n]; simpl; auto.
Qed.

Lemma strip_short n (line : pystr) :
  strip line = line -> length line <= n -> strip (firstn n line) = line.
Proof. intros H L. now rewrite firstn_all2. Qed.

Lemma isAZ_not_space (c : N) : isAZ c = true -> isspace c = false.
Proof.
  unfold isAZ, inN. rewrite andb_true_iff, !N.leb_le. intros [Lo Hi].
  unfold isspace, inN.
  repeat match goal with
         | |- context [(?a <=? ?b)%N] =>
             destruct (N.leb_spec a b); try lia
         | |- context [(?a =? ?b)%N] =>
             destruct (N.eqb_spec a b); try lia
         end.
  all: reflexivity.
Qed.

Lemma capitals_rstrip (s : pystr) :
  Forall (fun c => isAZ c = true) s -> rstrip s = s.
Proof.
  intros H. apply rstrip_fixed. intros t x ->.
  apply Forall_app in H as [_ H]. inversion H; subst.
  now apply isAZ_not_space.
Qed.

(** [shorten] cuts at the last space of the first 60 characters. *)
Lemma shorten_last_space (s : pystr) :
  UpperCase.MAX_DESC_LEN < length s ->
  In SP (firstn UpperCase.MAX_DESC_LEN s) ->
  exists mid,
    firstn UpperCase.MAX_DESC_LEN s = shorten s ++ SP :: mid
    /\ ~ In SP mid.
Proof.
  intros L H. unfold shorten.
  apply Nat.ltb_lt in L. rewrite L. now apply rsplit1_head_cut.
Qed.

Lemma shorten_short (s : pystr) :
  length s <= UpperCase.MAX_DESC_LEN -> shorten s = s.
Proof.
  intros L. unfold shorten. apply Nat.ltb_ge in L. now rewrite L.
Qed.

End CutFacts.

(** C7, as the code has it.  The case-preserving variant cuts the company
    line after exactly 60 characters and the description line after
    exactly 80, wherever that falls, and removes the white space the cut
    leaves at the end; a line within the limit is kept whole.  The
    upper-case variant keeps at most 20 characters of the company and at
    most 60 of the description: a cleaned description line of at most 60
    characters is kept whole, and a longer one is cut at the last space
    among its first 60 characters when they hold one, so that the cut
    falls on a word boundary, and after exactly 60 characters otherwise.
    No token exceeds its maximum or ends in white space. *)
Theorem truncation_of_tokens {U : UnicodeData} :
  forall text : pystr,
    let company := CasePreserving.company_line text in
    let desc := CasePreserving.desc_line text in
    (CasePreserving.company_token text = rstrip (firstn 60 company)
     /\ CasePreserving.desc_token text = rstrip (firstn 80 desc)
     /\ (length company <= 60 -> CasePreserving.company_token text = company)
     /\ (length desc <= 80 -> CasePreserving.desc_token text = desc)
     /\ length (CasePreserving.company_token text) <= 60
     /\ length (CasePreserving.desc_token text) <= 80
     /\ rstrip (CasePreserving.company_token text)
        = CasePreserving.company_token text
     /\ rstrip (CasePreserving.desc_token text)
        = CasePreserving.desc_token text)
    /\ (let token :=
          firstn UpperCase.MAX_COMPANY_LEN (UpperCase.guess_company text) in
        length token <= 20 /\ rstrip token = token)
    /\ length (UpperCase.guess_desc text) <= 60
    /\ rstrip (UpperCase.guess_desc text) = UpperCase.guess_desc text
    /\ (forall l0 rest,
          UpperCase.long_lines text = l0 :: rest ->
          let s := UpperCase.clean l0 in
          let d := UpperCase.guess_desc text in
          (length s <= 60 -> d = s)
          /\ (60 < length s ->
              (In SP (firstn 60 s) ->
               exists mid, firstn 60 s = d ++ SP :: mid /\ ~ In SP mid)
              /\ (~ In SP (firstn 60 s) -> d = firstn 60 s))).
Proof.
  intros text company desc. split; [|split; [|split; [|split]]].
  - unfold CasePreserving.company_token, CasePreserving.desc_token.
    fold company. fold desc.
    pose proof (company_line_stripped text) as Hc. fold company in Hc.
    pose proof (desc_line_stripped text) as Hd. fold desc in Hd.
    split; [now apply strip_cut|]. split; [now apply strip_cut|].
    split; [now apply strip_short|]. split; [now apply strip_short|].
    split; [etransitivity; [apply strip_length | apply firstn_le_length]|].
    split; [etransitivity; [apply strip_length | apply firstn_le_length]|].
    split; apply rstrip_strip.
  - cbv zeta. split; [apply firstn_le_length|].
    apply capitals_rstrip, firstn_Forall, guess_company_capitals.
  - apply guess_desc_length.
  - unfold UpperCase.guess_desc.
    destruct (UpperCase.long_lines text) as [|l0 rest].
    + reflexivity.
    + apply (shorten_cleaned l0).
  - intros l0 rest E s d. subst d. unfold UpperCase.guess_desc.
    rewrite E. fold s. fold (shorten s). split.
    + apply shorten_short.
    + intros L. split.
      * now apply shorten_last_space.
      * intros Hn. unfold shorten. apply Nat.ltb_lt in L.
        unfold UpperCase.MAX_DESC_LEN in *. rewrite L.
        now apply rsplit1_head_whole.
Qed.

(** A 200-character description line.  The upper-case variant cuts it
    after the second word: that is the last space among the first 60
    characters.  The case-preserving variant keeps its first 80
    characters. *)
Lemma truncation_of_tokens_witness :
  length long_line = 200
  /\ @UpperCase.guess_desc basic_latin long_line = lit "MONTHLY STATEMENT"
  /\ (exists mid,
        firstn 60 (@UpperCase.clean basic_latin long_line)
        = @UpperCase.guess_desc basic_latin long_line ++ SP :: mid
        /\ ~ In SP mid)
  /\ @CasePreserving.desc_token basic_latin
       (lit "ACME Trading Company" ++ [LF] ++ long_line)
     = firstn 80 long_line.
Proof.
  split; [reflexivity|]. split; [reflexivity|]. split.
  - refine (proj1 (proj2 (proj2 (proj2 (proj2 (proj2
              (@truncation_of_tokens basic_latin long_line))))
              long_line [] eq_refl) _) _).
    + vm_compute. lia.
    + vm_compute. tauto.
  - etransitivity.
    + exact (proj1 (proj2 (proj1
               (@truncation_of_tokens basic_latin
                  (lit "ACME Trading Company" ++ [LF] ++ long_line))))).
    + reflexivity.
Defined.

(** C7 as stated fails in the case-preserving variant: the description
    line below has 200 characters and two spaces among its first 80, yet
    the description token is exactly its first 80 characters, which end
    inside the run of letters (characters 79 and 80 are both the letter
    [x]); the cut is not followed by a space. *)
Lemma case_preserving_cut_splits_word :
  let text := lit "ACME Trading Company" ++ [LF] ++ long_line in
  @CasePreserving.desc_line basic_latin text = long_line
  /\ length long_line = 200
  /\ In SP (firstn 80 long_line)
  /\ @CasePreserving.desc_token basic_latin text = firstn 80 long_line
  /\ nth 79 long_line 0%N = 120%N
  /\ nth 80 long_line 0%N = 120%N
  /\ ~ (exists tail,
          long_line
          = @CasePreserving.desc_token basic_latin text ++ SP :: tail)
  /\ @CasePreserving.name_for_text basic_latin text (lit "scan0001")
     = lit "ACME Trading Company - " ++ firstn 80 long_line ++ lit ".pdf".
Proof.
  cbv zeta. repeat split.
  - vm_compute. tauto.
  - intros [tail E].
    apply (f_equal (fun l => nth 80 l 0%N)) in E.
    vm_compute in E. discriminate E.
Qed.

(** ** Where a rename puts the file *)

Section PathFacts.
Context {U : UnicodeData}.

Lemma find_last_app c (a b : pystr) i best :
  find_last c (a ++ b) i best
  = find_last c b (i + Z.of_nat (length a))%Z (find_last c a i best).
Proof.
  revert i best. induction a as [|x a IH]; intros i best; simpl.
  - now rewrite Z.add_0_r.
  - rewrite IH. f_equal. lia.
Qed.

Lemma find_last_absent c (s : pystr) i best :
  ~ In c s -> find_last c s i best = best.
Proof.
  revert i best. induction s as [|x s IH]; intros i best H; simpl.
  - reflexivity.
  - destruct (N.eqb_spec x c) as [->|_].
    + exfalso. apply H. now left.
    + apply IH. intros Hin. apply H. now right.
Qed.

Lemma find_last_bound c (s : pystr) i best :
  (best < i)%Z ->
  (find_last c s i best < i + Z.of_nat (length s))%Z.
Proof.
  revert i best. induction s as [|x s IH]; intros i best H; simpl.
  - lia.
  - specialize (IH (i + 1)%Z (if (x =? c)%N then i else best)).
    destruct (x =? c)%N; lia.
Qed.

Lemma rfind_snoc c (a : pystr) (x : N) :
  rfind c (a ++ [x])
  = if (x =? c)%N then Z.of_nat (length a) else rfind c a.
Proof.
  unfold rfind. rewrite find_last_app. simpl. now destruct (x =? c)%N.
Qed.

Lemma rfind_bound c (a : pystr) : (rfind c a < Z.of_nat (length a))%Z.
Proof. unfold rfind. apply find_last_bound. lia. Qed.

Lemma rfind_last c (a : pystr) :
  a <> [] -> rfind c a = (Z.of_nat (length a) - 1)%Z ->
  exists a', a = a' ++ [c].
Proof.
  destruct a as [|x a' _] using rev_ind; [congruence|].
  intros _. rewrite rfind_snoc, length_app. simpl.
  destruct (N.eqb_spec x c) as [->|_]; [now exists a'|].
  pose proof (rfind_bound c a'). lia.
Qed.

Lemma unreserved_no_slash (name : pystr) : unreserved name -> ~ In SLASH name.
Proof.
  intros H Hin. unfold unreserved in H. rewrite Forall_forall in H.
  specialize (H SLASH Hin). discriminate H.
Qed.

Lemma basename_after_slash (a name : pystr) :
  ~ In SLASH name -> os_path_basename (a ++ [SLASH] ++ name) = name.
Proof.
  intros H. unfold os_path_basename, rfind.
  rewrite app_assoc, find_last_app. rewrite find_last_absent by exact H.
  fold (rfind SLASH (a ++ [SLASH])). rewrite rfind_snoc. simpl.
  replace (Z.to_nat (Z.of_nat (length a) + 1)) with (length (a ++ [SLASH]))
    by (rewrite length_app; simpl; lia).
  now rewrite skipn_app, skipn_all, Nat.sub_diag.
Qed.

Lemma basename_plain (name : pystr) :
  ~ In SLASH name -> os_path_basename name = name.
Proof.
  intros H. unfold os_path_basename, rfind.
  now rewrite find_last_absent by exact H.
Qed.

Lemma basename_no_slash (p : pystr) : ~ In SLASH (os_path_basename p).
Proof.
  unfold os_path_basename.
  induction p as [|x a IH] using rev_ind; [intros []|].
  rewrite rfind_snoc. destruct (N.eqb_spec x SLASH) as [->|Hx].
  - replace (Z.to_nat (Z.of_nat (length a) + 1)) with (length (a ++ [SLASH]))
      by (rewrite length_app; simpl; lia).
    rewrite skipn_all. intros [].
  - pose proof (rfind_bound SLASH a) as B.
    rewrite skipn_app.
    replace (Z.to_nat (rfind SLASH a + 1) - length a) with 0 by lia.
    intros H. apply in_app_or in H as [H|[H|[]]]; [now apply IH|].
    now apply Hx.
Qed.

Lemma join_unreserved (folder name : pystr) :
  unreserved name ->
  (os_path_join folder name = folder ++ name
   /\ (folder = [] \/ exists f, folder = f ++ [SLASH]))
  \/ os_path_join folder name = folder ++ [SLASH] ++ name.
Proof.
  intros Hu. unfold os_path_join.
  assert (startswith [SLASH] name = false) as ->.
  { destruct name as [|c name]; [reflexivity|].
    inversion Hu as [|? ? Hc _]; subst. cbn [startswith].
    destruct (N.eqb_spec SLASH c) as [<-|_]; [discriminate Hc | reflexivity]. }
  destruct folder as [|x folder]; [left; split; [reflexivity | now left]|].
  cbn [nonempty negb orb].
  destruct (Z.eqb_spec (rfind SLASH (x :: folder))
              (Z.of_nat (length (x :: folder)) - 1)) as [E|_].
  - left. split; [reflexivity|]. right.
    apply (rfind_last SLASH); [discriminate | exact E].
  - now right.
Qed.

Lemma join_basename (folder name : pystr) :
  unreserved name -> os_path_basename (os_path_join folder name) = name.
Proof.
  intros Hu. pose proof (unreserved_no_slash Hu) as Hn.
  destruct (join_unreserved folder Hu) as [[-> [->|[f ->]]]| ->].
  - now apply basename_plain.
  - rewrite <- app_assoc. now apply basename_after_slash.
  - now apply basename_after_slash.
Qed.

End PathFacts.

(** X6.  The target of a rename is a direct entry of the folder: because a
    proposed name holds no slash, joining it to any folder only appends
    it, after one slash when the folder does not end with one, and the
    last component of the target is the proposed name itself.  This holds
    for the names of both variants. *)
Theorem rename_target_stays_in_folder {U : UnicodeData} :
  forall folder text base : pystr,
    let a := CasePreserving.name_for_text text base in
    let b := UpperCase.name_for_text text in
    (os_path_join folder a = folder ++ a
     \/ os_path_join folder a = folder ++ [SLASH] ++ a)
    /\ os_path_basename (os_path_join folder a) = a
    /\ (os_path_join folder b = folder ++ b
        \/ os_path_join folder b = folder ++ [SLASH] ++ b)
    /\ os_path_basename (os_path_join folder b) = b.
Proof.
  intros folder text base a b.
  assert (Ha : unreserved a) by apply name_for_text_A_wellformed.
  assert (Hb : unreserved b) by apply name_for_text_B_wellformed.
  repeat split.
  - destruct (join_unreserved folder Ha) as [[E _]|E]; auto.
  - now apply join_basename.
  - destruct (join_unreserved folder Hb) as [[E _]|E]; auto.
  - now apply join_basename.
Qed.

(** ** The inputs of a scan *)

Section SortFacts.

Lemma str_leb_total (a b : pystr) : str_leb a b = false -> str_leb b a = true.
Proof.
  revert b. induction a as [|x a IH]; intros [|y b]; simpl;
    try discriminate; try reflexivity.
  destruct (N.ltb_spec x y), (N.ltb_spec y x); try discriminate;
    try reflexivity; try lia. apply IH.
Qed.

Lemma insert_sorted_perm (x : pystr) (l : list pystr) :
  Permutation (insert_sorted x l) (x :: l).
Proof.
  induction l as [|y l IH]; simpl; [reflexivity|].
  destruct (str_leb x y); [reflexivity|].
  rewrite IH. apply perm_swap.
Qed.

Lemma insert_sorted_sorted (x : pystr) (l : list pystr) :
  Sorted ascending l -> Sorted ascending (insert_sorted x l).
Proof.
  induction l as [|y l IH]; simpl; intros H.
  - repeat constructor.
  - destruct (str_leb x y) eqn:E.
    + constructor; [exact H | now constructor].
    + apply Sorted_inv in H as [Hs Hh]. constructor; [now apply IH|].
      destruct l as [|z l]; simpl.
      * constructor. now apply str_leb_total.
      * destruct (str_leb x z); constructor.
        -- now apply str_leb_total.
        -- now inversion Hh.
Qed.

Lemma list_sort_perm (l : list pystr) : Permutation (list_sort l) l.
Proof.
  induction l as [|x l IH]; simpl; [reflexivity|].
  rewrite insert_sorted_perm. now constructor.
Qed.

Lemma list_sort_sorted (l : list pystr) : Sorted ascending (list_sort l).
Proof.
  induction l as [|x l IH]; simpl; [constructor|].
  now apply insert_sorted_sorted.
Qed.

End SortFacts.

(** X7.  In folder mode (no file selected, a folder that is a directory)
    [_get_input_pdfs] returns the entries of the folder whose lower-cased
    name ends in [.pdf], each joined to the folder and each once, in
    ascending order; a blank folder or one that is not a directory gives
    no input, and selected files are returned as they are. *)
Theorem input_pdfs_of_folder {L : LowerTable} :
  forall (os : OS) (app : CasePreservingApp.App) (names : list pystr),
    let folder := strip (CasePreservingApp.folder_var app) in
    (CasePreservingApp.selected_files app = [] ->
     folder <> [] ->
     os_path_isdir os folder = true ->
     os_listdir os folder = Ok names ->
     exists pdfs,
       CasePreservingApp._get_input_pdfs os app = Ok pdfs
       /\ Permutation pdfs
            (List.map (os_path_join folder) (filter is_pdf names))
       /\ Sorted ascending pdfs)
    /\ (CasePreservingApp.selected_files app = [] ->
        folder = [] \/ os_path_isdir os folder = false ->
        CasePreservingApp._get_input_pdfs os app = Ok [])
    /\ (CasePreservingApp.selected_files app <> [] ->
        CasePreservingApp._get_input_pdfs os app
        = Ok (CasePreservingApp.selected_files app)).
Proof.
  intros os app names folder. unfold CasePreservingApp._get_input_pdfs.
  fold folder. split; [|split].
  - intros -> Hf Hd Hl. rewrite Hd, Hl.
    destruct folder as [|c f]; [congruence|]. simpl.
    eexists. split; [reflexivity|]. split.
    + apply list_sort_perm.
    + apply list_sort_sorted.
  - intros -> [->|Hd]; [reflexivity|]. rewrite Hd.
    now destruct (nonempty folder).
  - intros H. destruct (CasePreservingApp.selected_files app);
      [congruence | reflexivity].
Qed.

(** The folder [/docs]: the two PDF files, capitals first. *)
Lemma input_pdfs_of_folder_witness :
  let app := {| CasePreservingApp.folder_var := lit " /docs ";
                CasePreservingApp.selected_files := [];
                CasePreservingApp.tree := [];
                CasePreservingApp.info_var := [];
                CasePreservingApp.shown := [] |} in
  @CasePreservingApp._get_input_pdfs basic_lower docs_os app
  = Ok [lit "/docs/A.PDF"; lit "/docs/b.pdf"]
  /\ exists pdfs,
       @CasePreservingApp._get_input_pdfs basic_lower docs_os app = Ok pdfs
       /\ Sorted ascending pdfs.
Proof.
  cbv zeta. split; [reflexivity|].
  destruct (proj1 (@input_pdfs_of_folder basic_lower docs_os
                     {| CasePreservingApp.folder_var := lit " /docs ";
                        CasePreservingApp.selected_files := [];
                        CasePreservingApp.tree := [];
                        CasePreservingApp.info_var := [];
                        CasePreservingApp.shown := [] |}
                     [lit "b.pdf"; lit "notes.txt"; lit "A.PDF"])
             eq_refl ltac:(discriminate) eq_refl eq_refl)
    as (pdfs & E & _ & S).
  exists pdfs. split; assumption.
Defined.

(** ** What a scan leaves in the table *)

Section ScanFacts.
Context {U : UnicodeData} {L : LowerTable}.

Lemma propose_new_name_returns w path h :
  exists name h',
    CasePreserving.propose_new_name path w h = (Ok name, h')
    /\ wellformed_name name.
Proof.
  unfold CasePreserving.propose_new_name, bind.
  destruct (acquire_text_A_returns w path h) as (t & h' & ->).
  unfold ret. eexists _, _. split; [reflexivity|].
  apply name_for_text_A_wellformed.
Qed.

Lemma scan_entry_returns w folder f h :
  exists name h',
    UpperCase.scan_entry folder f w h
    = (Ok (os_path_join folder f, name), h')
    /\ wellformed_name name.
Proof.
  unfold UpperCase.scan_entry, bind.
  destruct (acquire_text_B_returns w (os_path_join folder f) h)
    as (t & h' & ->).
  unfold ret. eexists _, _. split; [reflexivity|].
  apply name_for_text_B_wellformed.
Qed.

Lemma scan_rows_from (pdfs : list pystr) :
  forall rows0 n0 w h,
  exists rows h',
    for_each pdfs (rows0, n0)
      (fun pdf_path acc =>
         new_name <- CasePreserving.propose_new_name pdf_path ;;
         ret (fst acc
                ++ [ {| CasePreservingApp.original := os_path_basename pdf_path;
                        CasePreservingApp.new_name := new_name;
                        CasePreservingApp.pdf_path := pdf_path |} ],
              snd acc + 1)) w h
    = (Ok (rows0 ++ rows, n0 + length pdfs), h')
    /\ List.map CasePreservingApp.pdf_path rows = pdfs
    /\ Forall row_ok rows.
Proof.
  induction pdfs as [|p pdfs IH]; intros rows0 n0 w h; simpl.
  - exists [], h. rewrite app_nil_r, Nat.add_0_r. repeat split. constructor.
  - unfold bind at 1. unfold bind at 1.
    destruct (propose_new_name_returns w p h) as (name & h1 & -> & Hn).
    unfold ret at 1. simpl.
    destruct (IH (rows0
                    ++ [ {| CasePreservingApp.original := os_path_basename p;
                            CasePreservingApp.new_name := name;
                            CasePreservingApp.pdf_path := p |} ])
                 (n0 + 1) w h1) as (rows & h' & E & Hm & Hr).
    eexists (_ :: rows), h'. split; [|split].
    + rewrite E, <- app_assoc. simpl.
      now replace (n0 + 1 + length pdfs) with (n0 + S (length pdfs)) by lia.
    + simpl. now rewrite Hm.
    + constructor; [split; [reflexivity | exact Hn] | exact Hr].
Qed.

Lemma scan_entries_from (folder : pystr) (names : list pystr) :
  forall rows0 tree0 w h,
  exists rows h',
    for_each names (rows0, tree0)
      (fun f acc =>
         if negb (is_pdf f) then ret acc
         else
           entry <- UpperCase.scan_entry folder f ;;
           ret (fst acc ++ [entry], snd acc ++ [(f, snd entry)])) w h
    = (Ok (rows0 ++ List.map (fun r => (os_path_join folder (fst r), snd r)) rows,
           tree0 ++ rows), h')
    /\ List.map fst rows = filter is_pdf names
    /\ Forall (fun r => wellformed_name (snd r)) rows.
Proof.
  induction names as [|f names IH]; intros rows0 tree0 w h; simpl.
  - exists [], h. simpl. rewrite !app_nil_r. repeat split. constructor.
  - unfold bind at 1. destruct (is_pdf f) eqn:Ef; simpl.
    + unfold bind at 1.
      destruct (scan_entry_returns w folder f h) as (name & h1 & -> & Hn).
      unfold ret at 1. simpl.
      destruct (IH (rows0 ++ [(os_path_join folder f, name)])
                   (tree0 ++ [(f, name)]) w h1)
        as (rows & h' & E & Hm & Hr).
      exists ((f, name) :: rows), h'. split; [|split].
      * rewrite E. simpl. now rewrite <- !app_assoc.
      * simpl. now rewrite Hm.
      * now constructor.
    + unfold ret at 1. apply IH.
Qed.

Lemma scan_rows_spec (pdfs : list pystr) w h :
  exists rows h',
    CasePreservingApp.scan_rows pdfs w h = (Ok (rows, length pdfs), h')
    /\ List.map CasePreservingApp.pdf_path rows = pdfs
    /\ Forall row_ok rows.
Proof. apply (scan_rows_from pdfs [] 0 w h). Qed.

Lemma scan_entries_spec (folder : pystr) (names : list pystr) w h :
  exists rows h',
    UpperCaseApp.scan_entries folder names w h
    = (Ok (List.map (fun r => (os_path_join folder (fst r), snd r)) rows,
           rows), h')
    /\ List.map fst rows = filter is_pdf names
    /\ Forall (fun r => wellformed_name (snd r)) rows.
Proof. apply (scan_entries_from folder names [] [] w h). Qed.

End ScanFacts.

(** X8.  [on_scan] never raises on account of a document: for every list
    of inputs and whatever the documents are, it fills the table with one
    row for each input, in the order of the inputs, each row holding the
    file's own name, a well-formed proposed name and the path as its tag,
    and reports their number.  Without input the table is left empty.
    An exception of [os.listdir] escapes after the table was cleared. *)
Theorem on_scan_fills_table {U : UnicodeData} {L : LowerTable} :
  forall (os : OS) (app : CasePreservingApp.App) (w : World) (h : history),
    match CasePreservingApp._get_input_pdfs os app with
    | Ok pdfs =>
        exists app' h',
          CasePreservingApp.on_scan os app w h = (Ok (app', None), h')
          /\ List.map CasePreservingApp.pdf_path (CasePreservingApp.tree app')
             = pdfs
          /\ Forall row_ok (CasePreservingApp.tree app')
          /\ (pdfs <> [] ->
              exists mode,
                CasePreservingApp.info_var app'
                = mode ++ lit ": scanned " ++ str_of_nat (length pdfs)
                    ++ lit " PDF(s). Review names, then click Rename.")
    | Raise e =>
        CasePreservingApp.on_scan os app w h
        = (Ok (CasePreservingApp.set_tree app [], Some e), h)
    end.
Proof.
  intros os app w h. unfold CasePreservingApp.on_scan.
  change (CasePreservingApp._get_input_pdfs os
            (CasePreservingApp.set_tree app []))
    with (CasePreservingApp._get_input_pdfs os app).
  destruct (CasePreservingApp._get_input_pdfs os app) as [[|p pdfs]|e].
  - eexists _, _. split; [reflexivity|]. simpl.
    repeat split; [constructor | congruence].
  - unfold bind.
    destruct (scan_rows_spec (p :: pdfs) w h)
      as (rows & h' & -> & Hm & Hr).
    eexists _, _. split; [reflexivity|]. simpl.
    split; [exact Hm|]. split; [exact Hr|].
    intros _. eexists. reflexivity.
  - reflexivity.
Qed.

(** X9.  A scan of the upper-case window replaces what the previous scan
    left: whatever rows the window held, after [scan] it holds one row for
    each directory entry whose lower-cased name ends in [.pdf], in the
    order of the listing, with the joined path and a well-formed name, and
    the table shows the same names beside the entries; when the folder is
    not a directory the rows and the table are left empty and an error is
    shown. *)
Theorem scan_replaces_rows {U : UnicodeData} {L : LowerTable} :
  forall (os : OS) (app : UpperCaseApp.App) (w : World) (h : history),
    let folder := UpperCaseApp.folder app in
    (os_path_isdir os folder = false ->
     UpperCaseApp.scan os app w h
     = (Ok ({| UpperCaseApp.folder := folder;
               UpperCaseApp.rows := [];
               UpperCaseApp.tree := [];
               UpperCaseApp.shown :=
                 UpperCaseApp.shown app
                   ++ [(UpperCaseApp.Showerror, lit "Error",
                        lit "Invalid folder")] |}, None), h))
    /\ (forall names,
          os_path_isdir os folder = true ->
          os_listdir os folder = Ok names ->
          exists app' h',
            UpperCaseApp.scan os app w h = (Ok (app', None), h')
            /\ List.map fst (UpperCaseApp.rows app')
               = List.map (os_path_join folder) (filter is_pdf names)
            /\ List.map fst (UpperCaseApp.tree app') = filter is_pdf names
            /\ List.map snd (UpperCaseApp.tree app')
               = List.map snd (UpperCaseApp.rows app')
            /\ Forall wellformed_name
                 (List.map snd (UpperCaseApp.rows app'))
            /\ UpperCaseApp.shown app' = UpperCaseApp.shown app).
Proof.
  intros os app w h folder. split.
  - intros Hd. unfold UpperCaseApp.scan. simpl. fold folder.
    now rewrite Hd.
  - intros names Hd Hl. unfold UpperCaseApp.scan. simpl. fold folder.
    rewrite Hd, Hl. simpl.
    unfold bind.
    destruct (scan_entries_spec folder names w h)
      as (rows & h' & -> & Hm & Hr).
    eexists _, _. split; [reflexivity|]. simpl.
    rewrite !map_map. simpl. repeat split.
    + rewrite <- Hm. now rewrite map_map.
    + exact Hm.
    + apply Forall_map. exact Hr.
Qed.

(** A second scan of [/docs], over a window that still shows a row of a
    folder visited before. *)
Lemma scan_replaces_rows_witness :
  let app := {| UpperCaseApp.folder := lit "/docs";
                UpperCaseApp.rows := [(lit "/old/x.pdf", lit "X - Y.pdf")];
                UpperCaseApp.tree := [(lit "x.pdf", lit "X - Y.pdf")];
                UpperCaseApp.shown := [] |} in
  exists app' h',
    @UpperCaseApp.scan basic_latin basic_lower docs_os app
      (world_of_pages [text_page long_line]) []
    = (Ok (app', None), h')
    /\ List.map fst (UpperCaseApp.rows app')
       = [lit "/docs/b.pdf"; lit "/docs/A.PDF"]
    /\ List.map fst (UpperCaseApp.tree app') = [lit "b.pdf"; lit "A.PDF"].
Proof.
  cbv zeta.
  destruct (proj2 (@scan_replaces_rows basic_latin basic_lower docs_os
                     {| UpperCaseApp.folder := lit "/docs";
                        UpperCaseApp.rows :=
                          [(lit "/old/x.pdf", lit "X - Y.pdf")];
                        UpperCaseApp.tree := [(lit "x.pdf", lit "X - Y.pdf")];
                        UpperCaseApp.shown := [] |}
                     (world_of_pages [text_page long_line]) [])
             [lit "b.pdf"; lit "notes.txt"; lit "A.PDF"] eq_refl eq_refl)
    as (app' & h' & E & R & T & _).
  exists app', h'. split; [exact E|]. split; [exact R | exact T].
Defined.

(** ** The proposal depends on the acquired text alone *)

Section ObliviousFacts.
Context {U : UnicodeData} {L : LowerTable}.






End ObliviousFacts.


Section ObliviousAcquisition.
Context {U : UnicodeData} {L : LowerTable}.













End ObliviousAcquisition.

Section StableScans.
Context {U : UnicodeData} {L : LowerTable}.






End StableScans.

(** Which characters the heuristics look at *)

Section LocalFacts.





Variables U1 U2 : UnicodeData.








End LocalFacts.



(** ** Renaming *)

Section RenameFacts.
Context {U : UnicodeData} {L : LowerTable}.

Lemma renamed_to_rows fs (all : list CasePreservingApp.Row)
    (rows : list CasePreservingApp.Row) :
  incl rows all ->
  forall d c,
    let out := CasePreservingApp.rename_rows fs rows d c in
    total (snd out) = total c + length rows
    /\ exists n,
         CasePreservingApp.renamed (snd out) = CasePreservingApp.renamed c + n
         /\ renamed_to fs all n d (fst out).
Proof.
  induction rows as [|row rest IH]; intros Hin d c;
    cbn [CasePreservingApp.rename_rows].
  - cbv zeta. simpl. split; [lia|]. exists 0. split; [lia | constructor].
  - assert (Hrow : In row all) by (apply Hin; now left).
    assert (Hrest : incl rest all)
      by (intros r Hr; apply Hin; now right).
    specialize (IH Hrest). cbv zeta.
    change (os_path_join (os_path_dirname (CasePreservingApp.pdf_path row))
              (CasePreservingApp.new_name row)) with (target_of row).
    destruct (str_eqb _ _) eqn:Ea.
    { destruct (IH d {| CasePreservingApp.renamed := CasePreservingApp.renamed c;
                        CasePreservingApp.skipped := CasePreservingApp.skipped c + 1;
                        CasePreservingApp.errors := CasePreservingApp.errors c |})
        as [T (n & Rn & Rt)].
      split; [rewrite T; unfold total; simpl; lia|].
      exists n. split; [exact Rn | exact Rt]. }
    destruct (os_path_exists fs d (target_of row)) eqn:Hfree.
    { destruct (IH d {| CasePreservingApp.renamed := CasePreservingApp.renamed c;
                        CasePreservingApp.skipped := CasePreservingApp.skipped c + 1;
                        CasePreservingApp.errors := CasePreservingApp.errors c |})
        as [T (n & Rn & Rt)].
      split; [rewrite T; unfold total; simpl; lia|].
      exists n. split; [exact Rn | exact Rt]. }
    destruct (os_rename fs d _ _) as [d'|e] eqn:Er.
    + destruct (IH d' {| CasePreservingApp.renamed := CasePreservingApp.renamed c + 1;
                         CasePreservingApp.skipped := CasePreservingApp.skipped c;
                         CasePreservingApp.errors := CasePreservingApp.errors c |})
        as [T (n & Rn & Rt)].
      split; [rewrite T; unfold total; simpl; lia|].
      exists (S n). split; [rewrite Rn; simpl; lia|].
      eapply renamed_more; [exact Hrow | | exact Hfree | exact Er | exact Rt].
      intros E. rewrite E in Ea.
      assert (R : str_eqb (os_path_abspath (os_at fs d) (target_of row))
                    (os_path_abspath (os_at fs d) (target_of row)) = true)
        by now apply str_eqb_eq.
      congruence.
    + destruct (IH d {| CasePreservingApp.renamed := CasePreservingApp.renamed c;
                        CasePreservingApp.skipped := CasePreservingApp.skipped c;
                        CasePreservingApp.errors := CasePreservingApp.errors c + 1 |})
        as [T (n & Rn & Rt)].
      split; [rewrite T; unfold total; simpl; lia|].
      exists n. split; [exact Rn | exact Rt].
Qed.

Lemma moved_to_rows fs folder (all rows : list (pystr * pystr)) :
  incl rows all ->
  forall d,
    moved_to fs folder all d (snd (UpperCaseApp.rename_rows fs folder rows d)).
Proof.
  induction rows as [|[old new] rest IH]; intros Hin d;
    cbn [UpperCaseApp.rename_rows].
  - constructor.
  - assert (Hrow : In (old, new) all) by (apply Hin; now left).
    assert (Hrest : incl rest all)
      by (intros r Hr; apply Hin; now right).
    specialize (IH Hrest). cbv zeta.
    destruct (os_path_exists fs d _) eqn:Hfree; [apply IH|].
    destruct (os_rename fs d old _) as [d'|e] eqn:Er.
    + eapply moved_more; [exact Hrow | exact Hfree | exact Er | apply IH].
    + constructor.
Qed.

(** What [on_scan] leaves, whatever window it starts from. *)
Lemma on_scan_outcome os (app : CasePreservingApp.App) w h :
  exists app' e h',
    CasePreservingApp.on_scan os app w h = (Ok (app', e), h')
    /\ CasePreservingApp.shown app' = CasePreservingApp.shown app
    /\ match CasePreservingApp._get_input_pdfs os app with
       | Ok pdfs =>
           e = None
           /\ List.map CasePreservingApp.pdf_path (CasePreservingApp.tree app')
              = pdfs
           /\ Forall row_ok (CasePreservingApp.tree app')
       | Raise x => e = Some x /\ CasePreservingApp.tree app' = []
       end.
Proof.
  unfold CasePreservingApp.on_scan.
  change (CasePreservingApp._get_input_pdfs os
            (CasePreservingApp.set_tree app []))
    with (CasePreservingApp._get_input_pdfs os app).
  destruct (CasePreservingApp._get_input_pdfs os app) as [[|p pdfs]|e].
  - eexists _, _, _. split; [reflexivity|]. simpl.
    repeat split. constructor.
  - unfold bind.
    destruct (scan_rows_spec (p :: pdfs) w h)
      as (rows & h' & -> & Hm & Hr).
    eexists _, _, _. split; [reflexivity|]. simpl.
    repeat split; assumption.
  - eexists _, _, _. split; [reflexivity|]. simpl. repeat split.
Qed.

(** What [scan] leaves, whatever window it starts from. *)
Lemma scan_outcome os (app : UpperCaseApp.App) w h :
  let folder := UpperCaseApp.folder app in
  exists app' e h',
    UpperCaseApp.scan os app w h = (Ok (app', e), h')
    /\ UpperCaseApp.folder app' = folder
    /\ List.map snd (UpperCaseApp.tree app')
       = List.map snd (UpperCaseApp.rows app')
    /\ Forall wellformed_name (List.map snd (UpperCaseApp.rows app'))
    /\ (if os_path_isdir os folder
        then match os_listdir os folder with
             | Ok names =>
                 e = None
                 /\ List.map fst (UpperCaseApp.rows app')
                    = List.map (os_path_join folder) (filter is_pdf names)
                 /\ List.map fst (UpperCaseApp.tree app')
                    = filter is_pdf names
                 /\ UpperCaseApp.shown app' = UpperCaseApp.shown app
             | Raise x =>
                 e = Some x
                 /\ UpperCaseApp.rows app' = []
                 /\ UpperCaseApp.tree app' = []
                 /\ UpperCaseApp.shown app' = UpperCaseApp.shown app
             end
        else e = None
             /\ UpperCaseApp.rows app' = []
             /\ UpperCaseApp.tree app' = []
             /\ UpperCaseApp.shown app'
                = UpperCaseApp.shown app
                    ++ [(UpperCaseApp.Showerror, lit "Error",
                         lit "Invalid folder")]).
Proof.
  intros folder. unfold UpperCaseApp.scan.
  cbn [UpperCaseApp.set_rows UpperCaseApp.folder]. fold folder.
  destruct (os_path_isdir os folder); cbn [negb].
  - destruct (os_listdir os folder) as [names|x].
    + unfold bind.
      destruct (scan_entries_spec folder names w h)
        as (rows & h' & -> & Hm & Hr).
      eexists _, _, _. split; [reflexivity|]. simpl.
      rewrite !map_map. simpl. repeat split.
      * apply Forall_map. exact Hr.
      * rewrite <- Hm. now rewrite map_map.
      * exact Hm.
    + eexists _, _, _. split; [reflexivity|]. simpl.
      repeat split. constructor.
  - eexists _, _, _. split; [reflexivity|]. simpl.
    repeat split. constructor.
Qed.

End RenameFacts.

(** X10.  The three counters of the [Done] message of [on_rename] account
    for every row of the table: renamed, skipped and errors add up to the
    number of rows, whatever the file system does. *)
Theorem on_rename_counts_every_row :
  forall (fs : FileSystem) (rows : list CasePreservingApp.Row) (d : disk fs),
    let c := snd (CasePreservingApp.rename_rows fs rows d
                    {| CasePreservingApp.renamed := 0;
                       CasePreservingApp.skipped := 0;
                       CasePreservingApp.errors := 0 |}) in
    CasePreservingApp.renamed c + CasePreservingApp.skipped c
    + CasePreservingApp.errors c = length rows.
Proof.
  intros fs rows d.
  destruct (renamed_to_rows fs (incl_refl rows) d
              {| CasePreservingApp.renamed := 0;
                 CasePreservingApp.skipped := 0;
                 CasePreservingApp.errors := 0 |}) as [T _].
  exact T.
Qed.

(** X11.  All that [on_rename] does to the file system is to rename files
    onto targets that [os.path.exists] reports absent.  On any file
    system, the disk it leaves is reached from the disk it found by as
    many successful calls of [os.rename] as the [Renamed] counter says;
    each call moves the file of a row to [join(dirname(path), new name)]
    and is made only when [os.path.exists] has just reported that target
    absent and the absolute paths of source and target differ.  What a
    rename does to an entry that [os.path.exists] does not report, such
    as a symbolic link whose target is missing, is left to the file
    system. *)
Theorem on_rename_only_onto_free_targets
    {U : UnicodeData} {L : LowerTable} :
  forall (fs : FileSystem) (app : CasePreservingApp.App) (d : disk fs)
         (h : history),
    let out := CasePreservingApp.rename_rows fs (CasePreservingApp.tree app)
                 d no_count in
    renamed_to fs (CasePreservingApp.tree app)
      (CasePreservingApp.renamed (snd out)) d (fst out)
    /\ disk_after (CasePreservingApp.on_rename fs app d h) = fst out.
Proof.
  intros fs app d h out. split.
  - destruct (renamed_to_rows fs (incl_refl (CasePreservingApp.tree app))
                d no_count) as [_ (n & Rn & Rt)].
    fold out in Rn, Rt. rewrite Rn. exact Rt.
  - subst out. unfold CasePreservingApp.on_rename.
    destruct (CasePreservingApp.tree app) as [|row rest]; [reflexivity|].
    cbv zeta.
    destruct (CasePreservingApp.on_scan _ _ _ h) as [[[app' e]|e] h'];
      reflexivity.
Qed.

(** Two files that are proposed the same name, in a folder where that
    name is a symbolic link whose target is missing.  The link is not
    reported by [os.path.exists]: the first file is renamed onto it and
    the link is gone; the second file is then skipped and stays. *)
Lemma on_rename_only_onto_free_targets_witness :
  let fs := folder_fs (lit "/docs") in
  let app := {| CasePreservingApp.folder_var := lit "/docs";
                CasePreservingApp.selected_files := [];
                CasePreservingApp.tree :=
                  [ row_of (lit "/docs/a.pdf") (lit "ACME - Invoice.pdf");
                    row_of (lit "/docs/b.pdf") (lit "ACME - Invoice.pdf") ];
                CasePreservingApp.info_var := [];
                CasePreservingApp.shown := [] |} in
  let d : disk fs := [ (lit "a.pdf", blank_pdf);
                       (lit "ACME - Invoice.pdf", DanglingLink);
                       (lit "b.pdf", blank_pdf) ] in
  os_path_exists fs d (lit "/docs/ACME - Invoice.pdf") = false
  /\ disk_after (@CasePreservingApp.on_rename basic_latin basic_lower
                   fs app d [])
     = [ (lit "ACME - Invoice.pdf", blank_pdf); (lit "b.pdf", blank_pdf) ].
Proof.
  cbv zeta. split; [reflexivity|].
  etransitivity.
  - exact (proj2 (@on_rename_only_onto_free_targets basic_latin basic_lower
                    (folder_fs (lit "/docs")) _ _ [])).
  - reflexivity.
Defined.

(** X12.  All that [rename] of the upper-case window does to the file
    system is to rename files onto targets that [os.path.exists] reports
    absent: on any file system, whether the loop completes or stops on an
    exception, the disk it leaves is reached from the disk it found by
    successful calls of [os.rename], each moving the file of a row to
    [join(folder, new name)] and made only when [os.path.exists] has just
    reported that target absent.  Without confirmation the disk is not
    touched. *)
Theorem rename_only_onto_free_targets {U : UnicodeData} {L : LowerTable} :
  forall (fs : FileSystem) (app : UpperCaseApp.App) (confirmed : bool)
         (d : disk fs) (h : history),
    moved_to fs (UpperCaseApp.folder app) (UpperCaseApp.rows app) d
      (disk_after (UpperCaseApp.rename fs app confirmed d h))
    /\ (confirmed = false ->
        disk_after (UpperCaseApp.rename fs app confirmed d h) = d).
Proof.
  intros fs app confirmed d h. unfold UpperCaseApp.rename.
  destruct (UpperCaseApp.rows app) as [|row rest] eqn:E.
  - split; [constructor | reflexivity].
  - destruct confirmed; cbn [negb];
      [|split; [constructor | reflexivity]].
    split; [|discriminate].
    pose proof (moved_to_rows fs (UpperCaseApp.folder app)
                  (incl_refl (row :: rest)) d) as H.
    destruct (UpperCaseApp.rename_rows fs (UpperCaseApp.folder app)
                (row :: rest) d) as [[[]|e] d']; [|exact H].
    destruct (UpperCaseApp.scan _ _ _ h) as [[[app' e]|e] h']; exact H.
Qed.

(** The same folder in the upper-case window: the link is replaced by the
    first file and the second file stays. *)
Lemma rename_only_onto_free_targets_witness :
  let fs := folder_fs (lit "/docs") in
  let app := {| UpperCaseApp.folder := lit "/docs";
                UpperCaseApp.rows :=
                  [ (lit "/docs/a.pdf", lit "ACME - INVOICE.pdf");
                    (lit "/docs/b.pdf", lit "ACME - INVOICE.pdf") ];
                UpperCaseApp.tree := [];
                UpperCaseApp.shown := [] |} in
  let d : disk fs := [ (lit "a.pdf", blank_pdf);
                       (lit "ACME - INVOICE.pdf", DanglingLink);
                       (lit "b.pdf", blank_pdf) ] in
  disk_after (@UpperCaseApp.rename basic_latin basic_lower fs app true d [])
  = [ (lit "ACME - INVOICE.pdf", blank_pdf); (lit "b.pdf", blank_pdf) ]
  /\ disk_after (@UpperCaseApp.rename basic_latin basic_lower fs app false
                   d [])
     = d.
Proof.
  cbv zeta. split; [reflexivity|].
  exact (proj2 (@rename_only_onto_free_targets basic_latin basic_lower
                  (folder_fs (lit "/docs")) _ false _ []) eq_refl).
Defined.

(** ** A rename that fails *)

Section FailureFacts.

Lemma rename_rows_A_app fs (rows1 rows2 : list CasePreservingApp.Row) :
  forall d c,
    CasePreservingApp.rename_rows fs (rows1 ++ rows2) d c
    = CasePreservingApp.rename_rows fs rows2
        (fst (CasePreservingApp.rename_rows fs rows1 d c))
        (snd (CasePreservingApp.rename_rows fs rows1 d c)).
Proof.
  induction rows1 as [|row rest IH]; intros d c;
    cbn [app CasePreservingApp.rename_rows]; [reflexivity|].
  cbv zeta. destruct (str_eqb _ _); [apply IH|].
  destruct (os_path_exists fs d _); [apply IH|].
  destruct (os_rename fs d _ _); apply IH.
Qed.

Lemma rename_rows_B_app fs folder (rows1 rows2 : list (pystr * pystr)) :
  forall d,
    UpperCaseApp.rename_rows fs folder (rows1 ++ rows2) d
    = match UpperCaseApp.rename_rows fs folder rows1 d with
      | (Ok _, d1) => UpperCaseApp.rename_rows fs folder rows2 d1
      | (Raise e, d1) => (Raise e, d1)
      end.
Proof.
  induction rows1 as [|[old new] rest IH]; intros d;
    cbn [app UpperCaseApp.rename_rows]; [reflexivity|].
  cbv zeta. destruct (os_path_exists fs d _); [apply IH|].
  destruct (os_rename fs d old _); [apply IH | reflexivity].
Qed.

End FailureFacts.

(** X13.  In the upper-case window one failing rename stops the batch:
    when [os.rename] raises for a row whose target is free (as it does
    with [FileNotFoundError] for a source that no longer exists), [rename]
    does not catch the exception; the rows before it stay renamed, the
    rows after it are not looked at, no [Done] message is shown and the
    table is not scanned again. *)
Theorem rename_stops_at_first_error {U : UnicodeData} {L : LowerTable} :
  forall (fs : FileSystem) (app : UpperCaseApp.App) (d d1 : disk fs)
         (rows1 rows2 : list (pystr * pystr)) (old new : pystr) (e : exn)
         (h : history),
    UpperCaseApp.rows app = rows1 ++ (old, new) :: rows2 ->
    UpperCaseApp.rename_rows fs (UpperCaseApp.folder app) rows1 d
    = (Ok tt, d1) ->
    os_path_exists fs d1 (os_path_join (UpperCaseApp.folder app) new)
    = false ->
    os_rename fs d1 old (os_path_join (UpperCaseApp.folder app) new)
    = Raise e ->
    UpperCaseApp.rename fs app true d h = (app, Some e, d1, h).
Proof.
  intros fs app d d1 rows1 rows2 old new e h Hrows H1 Hfree Hr.
  unfold UpperCaseApp.rename. rewrite Hrows.
  destruct (rows1 ++ (old, new) :: rows2) as [|r rs] eqn:E;
    [now destruct rows1|].
  rewrite <- E. cbn [negb].
  rewrite rename_rows_B_app, H1. cbn [UpperCaseApp.rename_rows].
  cbv zeta. now rewrite Hfree, Hr.
Qed.

(** The second of three files was deleted after the scan: [os.rename]
    raises [FileNotFoundError]; the first file is renamed, the third is
    not. *)
Lemma rename_stops_at_first_error_witness :
  let fs := folder_fs (lit "/docs") in
  let app := {| UpperCaseApp.folder := lit "/docs";
                UpperCaseApp.rows :=
                  [ (lit "/docs/a.pdf", lit "ACME - A.pdf");
                    (lit "/docs/gone.pdf", lit "ACME - B.pdf");
                    (lit "/docs/c.pdf", lit "ACME - C.pdf") ];
                UpperCaseApp.tree := [];
                UpperCaseApp.shown := [] |} in
  let d : disk fs := [ (lit "a.pdf", blank_pdf); (lit "c.pdf", blank_pdf) ] in
  @UpperCaseApp.rename basic_latin basic_lower fs app true d []
  = (app, Some FileNotFoundError,
     [ (lit "ACME - A.pdf", blank_pdf); (lit "c.pdf", blank_pdf) ], []).
Proof.
  cbv zeta.
  apply (@rename_stops_at_first_error basic_latin basic_lower
           (folder_fs (lit "/docs")) _
           [ (lit "a.pdf", blank_pdf); (lit "c.pdf", blank_pdf) ]
           [ (lit "ACME - A.pdf", blank_pdf); (lit "c.pdf", blank_pdf) ]
           [(lit "/docs/a.pdf", lit "ACME - A.pdf")]
           [(lit "/docs/c.pdf", lit "ACME - C.pdf")]
           (lit "/docs/gone.pdf") (lit "ACME - B.pdf"));
    reflexivity.
Defined.

(** X14.  In the case-preserving window one failing rename does not stop
    the batch: when [os.rename] raises for a row, the error is counted,
    the disk is left as it was, and the loop goes on with the rows that
    follow. *)
Theorem on_rename_goes_on_after_error :
  forall (fs : FileSystem) (d : disk fs) (c : CasePreservingApp.Counts)
         (rows1 rows2 : list CasePreservingApp.Row)
         (row : CasePreservingApp.Row) (e : exn),
    let before := CasePreservingApp.rename_rows fs rows1 d c in
    let target :=
      os_path_join (os_path_dirname (CasePreservingApp.pdf_path row))
                   (CasePreservingApp.new_name row) in
    str_eqb (os_path_abspath (os_at fs (fst before))
               (CasePreservingApp.pdf_path row))
            (os_path_abspath (os_at fs (fst before)) target) = false ->
    os_path_exists fs (fst before) target = false ->
    os_rename fs (fst before) (CasePreservingApp.pdf_path row) target
    = Raise e ->
    CasePreservingApp.rename_rows fs (rows1 ++ row :: rows2) d c
    = CasePreservingApp.rename_rows fs rows2 (fst before)
        (one_more_error (snd before)).
Proof.
  intros fs d c rows1 rows2 row e before target Ha Hfree Hr.
  rewrite rename_rows_A_app. fold before.
  cbn [CasePreservingApp.rename_rows]. cbv zeta. fold target.
  now rewrite Ha, Hfree, Hr.
Qed.

(** The same three rows in the case-preserving window: the first and the
    third file are renamed and one error is counted. *)
Lemma on_rename_goes_on_after_error_witness :
  CasePreservingApp.rename_rows (folder_fs (lit "/docs"))
    [ row_of (lit "/docs/a.pdf") (lit "ACME - A.pdf");
      row_of (lit "/docs/gone.pdf") (lit "ACME - B.pdf");
      row_of (lit "/docs/c.pdf") (lit "ACME - C.pdf") ]
    [ (lit "a.pdf", blank_pdf); (lit "c.pdf", blank_pdf) ]
    no_count
  = ([ (lit "ACME - C.pdf", blank_pdf); (lit "ACME - A.pdf", blank_pdf) ],
     {| CasePreservingApp.renamed := 2; CasePreservingApp.skipped := 0;
        CasePreservingApp.errors := 1 |}).
Proof.
  etransitivity.
  exact (@on_rename_goes_on_after_error (folder_fs (lit "/docs"))
           [ (lit "a.pdf", blank_pdf); (lit "c.pdf", blank_pdf) ]
           no_count
           [ row_of (lit "/docs/a.pdf") (lit "ACME - A.pdf") ]
           [ row_of (lit "/docs/c.pdf") (lit "ACME - C.pdf") ]
           (row_of (lit "/docs/gone.pdf") (lit "ACME - B.pdf"))
           FileNotFoundError eq_refl eq_refl eq_refl).
  reflexivity.
Defined.

(** ** A file that already has its proposed name *)

Section SameNameFacts.
Context {U : UnicodeData}.

Lemma splitext_root_pdf (stem : pystr) :
  ~ In SLASH stem ->
  existsb (fun x => negb (x =? DOT)%N) stem = true ->
  os_path_splitext_root (stem ++ lit ".pdf") = stem.
Proof.
  intros Hs Hd. unfold os_path_splitext_root.
  assert (rfind SLASH (stem ++ lit ".pdf") = (-1)%Z) as ->.
  { unfold rfind. apply find_last_absent. intros H.
    apply in_app_or in H as [H|H]; [contradiction|].
    simpl in H. repeat destruct H as [H|H]; try discriminate H. exact H. }
  assert (rfind DOT (stem ++ lit ".pdf") = Z.of_nat (length stem)) as ->.
  { unfold rfind. rewrite find_last_app. reflexivity. }
  assert ((-1 <? Z.of_nat (length stem))%Z = true) as ->
    by (apply Z.ltb_lt; lia).
  unfold slice. simpl Z.to_nat. rewrite Nat2Z.id, Nat.sub_0_r. simpl skipn.
  rewrite firstn_app, firstn_all, Nat.sub_diag. simpl firstn.
  rewrite app_nil_r. now rewrite Hd.
Qed.

Lemma lstrip_chr_stop c (x : N) (s : pystr) :
  x <> c -> lstrip_chr c (x :: s) = x :: s.
Proof. intros H. simpl. now destruct (N.eqb_spec x c). Qed.

Lemma dirname_of_entry (f : pystr) (x : N) (name : pystr) :
  x <> SLASH -> ~ In SLASH name ->
  os_path_dirname ((f ++ [x]) ++ [SLASH] ++ name) = f ++ [x].
Proof.
  intros Hx Hn. unfold os_path_dirname.
  assert (rfind SLASH ((f ++ [x]) ++ [SLASH] ++ name)
          = Z.of_nat (length (f ++ [x]))) as ->.
  { unfold rfind. rewrite app_assoc, find_last_app.
    rewrite find_last_absent by exact Hn.
    fold (rfind SLASH ((f ++ [x]) ++ [SLASH])). now rewrite rfind_snoc. }
  replace (Z.to_nat (Z.of_nat (length (f ++ [x])) + 1))
    with (length ((f ++ [x]) ++ [SLASH]))
    by (rewrite (length_app (f ++ [x])); simpl; lia).
  rewrite app_assoc, firstn_app, firstn_all, Nat.sub_diag. simpl firstn.
  rewrite app_nil_r.
  assert (forallb (fun y => (y =? SLASH)%N) ((f ++ [x]) ++ [SLASH]) = false)
    as ->.
  { rewrite !forallb_app. simpl.
    destruct (N.eqb_spec x SLASH); [contradiction|].
    now rewrite andb_false_r. }
  assert (nonempty ((f ++ [x]) ++ [SLASH]) = true) as ->
    by (destruct f; reflexivity).
  cbn [andb negb]. unfold rstrip_chr. rewrite !rev_app_distr.
  change (lstrip_chr SLASH (rev [SLASH] ++ rev [x] ++ rev f))
    with (lstrip_chr SLASH (x :: rev f)).
  rewrite lstrip_chr_stop by exact Hx.
  cbn [rev]. now rewrite rev_involutive.
Qed.

Lemma join_entry (f : pystr) (x : N) (name : pystr) :
  x <> SLASH -> ~ In SLASH name ->
  os_path_join (f ++ [x]) name = (f ++ [x]) ++ [SLASH] ++ name.
Proof.
  intros Hx Hn. unfold os_path_join.
  assert (startswith [SLASH] name = false) as ->.
  { destruct name as [|c name]; [reflexivity|]. cbn [startswith].
    destruct (N.eqb_spec SLASH c) as [<-|_]; [|reflexivity].
    exfalso. apply Hn. now left. }
  assert (nonempty (f ++ [x]) = true) as -> by (destruct f; reflexivity).
  rewrite rfind_snoc.
  destruct (N.eqb_spec x SLASH); [contradiction|].
  rewrite length_app. simpl.
  destruct (Z.eqb_spec (rfind SLASH f) (Z.of_nat (length f + 1) - 1));
    [|reflexivity].
  pose proof (rfind_bound SLASH f). lia.
Qed.

(** Taking a path apart and joining it again gives the path, when the
    folder does not end with a slash. *)
Lemma dirname_join (f : pystr) (x : N) (name : pystr) :
  x <> SLASH -> ~ In SLASH name ->
  os_path_join (os_path_dirname ((f ++ [x]) ++ [SLASH] ++ name)) name
  = (f ++ [x]) ++ [SLASH] ++ name.
Proof.
  intros Hx Hn. rewrite dirname_of_entry by assumption.
  now apply join_entry.
Qed.

End SameNameFacts.

(** X15.  A file from which no text can be acquired and whose name is a
    stem followed by [.pdf] (the stem not made of dots only) is proposed
    the sanitized stem followed by [.pdf].  So it is proposed its own name
    exactly when [safe_filename] leaves the stem unchanged, that is when
    the stem, not the whole name, has no reserved character, no white
    space at its ends and only single spaces as white space. *)
Theorem textless_tidy_file_keeps_its_name {U : UnicodeData} :
  forall (w : World) (p stem : pystr) (h h' : history),
    os_path_basename p = stem ++ lit ".pdf" ->
    existsb (fun x => negb (x =? DOT)%N) stem = true ->
    CasePreserving.acquire_text p w h = (Ok [], h') ->
    CasePreserving.propose_new_name p w h
    = (Ok (CasePreserving.safe_filename stem ++ lit ".pdf"), h')
    /\ (CasePreserving.propose_new_name p w h = (Ok (os_path_basename p), h')
        <-> unreserved stem /\ single_spaced stem /\ strip stem = stem).
Proof.
  intros w p stem h h' Hb Hd Ha.
  assert (E : CasePreserving.propose_new_name p w h
              = (Ok (CasePreserving.safe_filename stem ++ lit ".pdf"), h')).
  { unfold CasePreserving.propose_new_name, bind. rewrite Ha.
    unfold ret. f_equal. f_equal.
    unfold CasePreserving.base_of. rewrite Hb.
    rewrite splitext_root_pdf; [reflexivity | | exact Hd].
    intros Hin. apply (basename_no_slash p). rewrite Hb.
    apply in_or_app. now left. }
  split; [exact E|]. rewrite E, Hb. split.
  - intros [= H]. apply app_inv_tail in H. rewrite <- H.
    apply safe_filename_tidy.
  - intros (Hu & Hs & Ht). now rewrite safe_filename_fixed.
Qed.

(** A missing file named [Invoice 123.pdf] is proposed its own name.  A
    missing file named [a .pdf] is not: the name as a whole is left
    unchanged by [safe_filename], but its stem ends with a space, and the
    proposal is [a.pdf]. *)
Lemma textless_tidy_file_keeps_its_name_witness :
  fst (@CasePreserving.propose_new_name basic_latin
         (lit "/docs/Invoice 123.pdf") empty_world [])
  = Ok (lit "Invoice 123.pdf")
  /\ @CasePreserving.safe_filename (lit "a .pdf") = lit "a .pdf"
  /\ fst (@CasePreserving.propose_new_name basic_latin
            (lit "/docs/a .pdf") empty_world [])
     = Ok (lit "a.pdf").
Proof.
  split; [|split; [reflexivity|]].
  - destruct (@textless_tidy_file_keeps_its_name basic_latin empty_world
                (lit "/docs/Invoice 123.pdf") (lit "Invoice 123") [] _
                eq_refl eq_refl eq_refl) as [_ [_ H]].
    rewrite H; [reflexivity|].
    split; [now apply unreserved_check|].
    split; [vm_compute; intuition discriminate | reflexivity].
  - destruct (@textless_tidy_file_keeps_its_name basic_latin empty_world
                (lit "/docs/a .pdf") (lit "a ") [] _
                eq_refl eq_refl eq_refl) as [H _].
    rewrite H. reflexivity.
Defined.

(** X16.  [on_rename] leaves alone a file that already has its proposed
    name: for a row whose path is a folder (not ending with a slash), a
    slash and the proposed name, the disk is not touched and the row is
    counted as skipped, whatever the file system holds. *)
Theorem on_rename_skips_same_name :
  forall (fs : FileSystem) (d : disk fs) (c : CasePreservingApp.Counts)
         (f : pystr) (x : N) (row : CasePreservingApp.Row)
         (rest : list CasePreservingApp.Row),
    x <> SLASH ->
    ~ In SLASH (CasePreservingApp.new_name row) ->
    CasePreservingApp.pdf_path row
    = (f ++ [x]) ++ [SLASH] ++ CasePreservingApp.new_name row ->
    CasePreservingApp.rename_rows fs (row :: rest) d c
    = CasePreservingApp.rename_rows fs rest d (one_more_skipped c).
Proof.
  intros fs d c f x row rest Hx Hn Hp.
  cbn [CasePreservingApp.rename_rows]. cbv zeta.
  rewrite Hp, dirname_join by assumption.
  assert (str_eqb
            (os_path_abspath (os_at fs d)
               ((f ++ [x]) ++ [SLASH] ++ CasePreservingApp.new_name row))
            (os_path_abspath (os_at fs d)
               ((f ++ [x]) ++ [SLASH] ++ CasePreservingApp.new_name row))
          = true) as -> by now apply str_eqb_eq.
  reflexivity.
Qed.

(** The file [/docs/Invoice 123.pdf] with the proposal [Invoice 123.pdf],
    in a folder where it exists. *)
Lemma on_rename_skips_same_name_witness :
  CasePreservingApp.rename_rows (folder_fs (lit "/docs"))
    [ row_of (lit "/docs/Invoice 123.pdf") (lit "Invoice 123.pdf") ]
    [ (lit "Invoice 123.pdf", blank_pdf) ]
    no_count
  = ([ (lit "Invoice 123.pdf", blank_pdf) ],
     {| CasePreservingApp.renamed := 0; CasePreservingApp.skipped := 1;
        CasePreservingApp.errors := 0 |}).
Proof.
  etransitivity.
  - apply (@on_rename_skips_same_name (folder_fs (lit "/docs"))
             [ (lit "Invoice 123.pdf", blank_pdf) ] no_count
             (lit "/doc") 115%N).
    + discriminate.
    + vm_compute. intuition discriminate.
    + reflexivity.
  - reflexivity.
Defined.

(** ** The scan that ends a rename *)

(** X17.  When the table has rows, [on_rename] shows the [Done] message
    with the three counters and then scans again, on the disk as the
    renames left it: the window it returns holds one well-formed row for
    each input that [_get_input_pdfs] finds on that disk, in order; an
    exception of [os.listdir] escapes from [on_rename] after the message,
    with the table cleared.  In selected-files mode the inputs are still
    the paths selected before the rename, so the table lists the old
    paths again. *)
Theorem on_rename_ends_with_scan {U : UnicodeData} {L : LowerTable} :
  forall (fs : FileSystem) (app : CasePreservingApp.App) (d : disk fs)
         (h : history),
    CasePreservingApp.tree app <> [] ->
    let r := CasePreservingApp.on_rename fs app d h in
    let app' := window_after r in
    CasePreservingApp.shown app'
    = CasePreservingApp.shown app
        ++ [(lit "Done",
             CasePreservingApp.done_message
               (snd (CasePreservingApp.rename_rows fs
                       (CasePreservingApp.tree app) d no_count)))]
    /\ match CasePreservingApp._get_input_pdfs (os_at fs (disk_after r)) app
       with
       | Ok pdfs =>
           escaped r = None
           /\ List.map CasePreservingApp.pdf_path (CasePreservingApp.tree app')
              = pdfs
           /\ Forall row_ok (CasePreservingApp.tree app')
       | Raise x => escaped r = Some x /\ CasePreservingApp.tree app' = []
       end
    /\ (CasePreservingApp.selected_files app <> [] ->
        List.map CasePreservingApp.pdf_path (CasePreservingApp.tree app')
        = CasePreservingApp.selected_files app).
Proof.
  intros fs app d h Hrows r app'.
  assert (Scan :
    CasePreservingApp.shown app'
    = CasePreservingApp.shown app
        ++ [(lit "Done",
             CasePreservingApp.done_message
               (snd (CasePreservingApp.rename_rows fs
                       (CasePreservingApp.tree app) d no_count)))]
    /\ match CasePreservingApp._get_input_pdfs (os_at fs (disk_after r)) app
       with
       | Ok pdfs =>
           escaped r = None
           /\ List.map CasePreservingApp.pdf_path (CasePreservingApp.tree app')
              = pdfs
           /\ Forall row_ok (CasePreservingApp.tree app')
       | Raise x => escaped r = Some x /\ CasePreservingApp.tree app' = []
       end).
  { subst app' r. unfold CasePreservingApp.on_rename.
    destruct (CasePreservingApp.tree app) as [|row rest] eqn:E;
      [congruence|].
    cbv zeta. fold no_count.
    set (done := CasePreservingApp.rename_rows fs (row :: rest) d no_count).
    set (shown_done :=
           CasePreservingApp.showinfo app (lit "Done")
             (CasePreservingApp.done_message (snd done))).
    destruct (on_scan_outcome (os_at fs (fst done)) shown_done
                (world_at fs (fst done)) h)
      as (app1 & e & h1 & -> & Hs & Hm).
    unfold window_after, escaped, disk_after. cbn [fst snd].
    split; [exact Hs | exact Hm]. }
  destruct Scan as [S1 S2]. split; [exact S1|]. split; [exact S2|].
  intros Hsel. unfold CasePreservingApp._get_input_pdfs in S2.
  destruct (CasePreservingApp.selected_files app) as [|p ps];
    [congruence|].
  now destruct S2 as (_ & S2 & _).
Qed.

(** A selected file is renamed; the scan that follows looks for it under
    its old path, finds no text there and proposes the old name. *)
Lemma on_rename_ends_with_scan_witness :
  let fs := folder_fs (lit "/docs") in
  let name :=
    lit "ACME Trading Company - Invoice number 42 for the month of March.pdf" in
  let app := {| CasePreservingApp.folder_var := lit "/docs";
                CasePreservingApp.selected_files := [lit "/docs/a.pdf"];
                CasePreservingApp.tree := [row_of (lit "/docs/a.pdf") name];
                CasePreservingApp.info_var := [];
                CasePreservingApp.shown := [] |} in
  let d : disk fs := [(lit "a.pdf", invoice_pdf)] in
  let r := @CasePreservingApp.on_rename basic_latin basic_lower fs app d [] in
  disk_after r = [(name, invoice_pdf)]
  /\ CasePreservingApp.tree (window_after r)
     = [row_of (lit "/docs/a.pdf") (lit "a.pdf")]
  /\ List.map CasePreservingApp.pdf_path
       (CasePreservingApp.tree (window_after r))
     = [lit "/docs/a.pdf"].
Proof.
  cbv zeta. split; [reflexivity|]. split; [reflexivity|].
  apply (@on_rename_ends_with_scan basic_latin basic_lower
           (folder_fs (lit "/docs"))
           {| CasePreservingApp.folder_var := lit "/docs";
              CasePreservingApp.selected_files := [lit "/docs/a.pdf"];
              CasePreservingApp.tree :=
                [row_of (lit "/docs/a.pdf")
                   (lit "ACME Trading Company - Invoice number 42 for the month of March.pdf")];
              CasePreservingApp.info_var := [];
              CasePreservingApp.shown := [] |}
           [(lit "a.pdf", invoice_pdf)] []);
    discriminate.
Defined.

(** X18.  When the loop of [rename] completes, the upper-case window shows
    [Renaming complete] and then scans again, on the disk as the renames
    left it: the rows and the table it returns are those of the [.pdf]
    entries that the folder lists on that disk, in the order of the
    listing, each with a well-formed name; when the folder is no longer a
    directory an error is shown after the message and the rows are left
    empty; an exception of [os.listdir] escapes from [rename] after the
    message, with the rows cleared. *)
Theorem rename_ends_with_scan {U : UnicodeData} {L : LowerTable} :
  forall (fs : FileSystem) (app : UpperCaseApp.App) (d d' : disk fs)
         (h : history),
    UpperCaseApp.rows app <> [] ->
    UpperCaseApp.rename_rows fs (UpperCaseApp.folder app)
      (UpperCaseApp.rows app) d = (Ok tt, d') ->
    let r := UpperCaseApp.rename fs app true d h in
    let app' := window_after r in
    let folder := UpperCaseApp.folder app in
    let done := (UpperCaseApp.Showinfo, lit "Done", lit "Renaming complete") in
    disk_after r = d'
    /\ List.map snd (UpperCaseApp.tree app')
       = List.map snd (UpperCaseApp.rows app')
    /\ Forall wellformed_name (List.map snd (UpperCaseApp.rows app'))
    /\ (if os_path_isdir (os_at fs d') folder
        then match os_listdir (os_at fs d') folder with
             | Ok names =>
                 escaped r = None
                 /\ List.map fst (UpperCaseApp.rows app')
                    = List.map (os_path_join folder) (filter is_pdf names)
                 /\ List.map fst (UpperCaseApp.tree app')
                    = filter is_pdf names
                 /\ UpperCaseApp.shown app'
                    = UpperCaseApp.shown app ++ [done]
             | Raise x =>
                 escaped r = Some x
                 /\ UpperCaseApp.rows app' = []
                 /\ UpperCaseApp.tree app' = []
                 /\ UpperCaseApp.shown app'
                    = UpperCaseApp.shown app ++ [done]
             end
        else escaped r = None
             /\ UpperCaseApp.rows app' = []
             /\ UpperCaseApp.tree app' = []
             /\ UpperCaseApp.shown app'
                = UpperCaseApp.shown app
                    ++ [done; (UpperCaseApp.Showerror, lit "Error",
                               lit "Invalid folder")]).
Proof.
  intros fs app d d' h Hrows Hloop r app' folder done.
  subst app' r. unfold UpperCaseApp.rename.
  destruct (UpperCaseApp.rows app) as [|row rest] eqn:E; [congruence|].
  cbn [negb]. rewrite Hloop. cbv zeta.
  set (shown_done :=
         UpperCaseApp.show app UpperCaseApp.Showinfo (lit "Done")
           (lit "Renaming complete")).
  destruct (scan_outcome (os_at fs d') shown_done (world_at fs d') h)
    as (app1 & e & h1 & -> & Hf & Ht & Hw & Hm).
  unfold window_after, escaped, disk_after. cbn [fst snd].
  split; [reflexivity|]. split; [exact Ht|]. split; [exact Hw|].
  change (UpperCaseApp.folder shown_done) with folder in Hm.
  change (UpperCaseApp.shown shown_done)
    with (UpperCaseApp.shown app ++ [done]) in Hm.
  destruct (os_path_isdir (os_at fs d') folder).
  - exact Hm.
  - rewrite <- app_assoc in Hm. exact Hm.
Qed.

(** A file is renamed to the name proposed for its text; the scan that
    follows finds it under its new name and proposes that name again. *)
Lemma rename_ends_with_scan_witness :
  let fs := folder_fs (lit "/docs") in
  let name := lit "ACME - ACME TRADING COMPANY.pdf" in
  let app := {| UpperCaseApp.folder := lit "/docs";
                UpperCaseApp.rows := [(lit "/docs/a.pdf", name)];
                UpperCaseApp.tree := [(lit "a.pdf", name)];
                UpperCaseApp.shown := [] |} in
  let d : disk fs := [(lit "a.pdf", invoice_pdf)] in
  let r := @UpperCaseApp.rename basic_latin basic_lower fs app true d [] in
  disk_after r = [(name, invoice_pdf)]
  /\ UpperCaseApp.rows (window_after r)
     = [(lit "/docs/ACME - ACME TRADING COMPANY.pdf", name)]
  /\ UpperCaseApp.tree (window_after r) = [(name, name)].
Proof.
  cbv zeta. split; [|split; reflexivity].
  apply (@rename_ends_with_scan basic_latin basic_lower
           (folder_fs (lit "/docs"))
           {| UpperCaseApp.folder := lit "/docs";
              UpperCaseApp.rows :=
                [(lit "/docs/a.pdf", lit "ACME - ACME TRADING COMPANY.pdf")];
              UpperCaseApp.tree :=
                [(lit "a.pdf", lit "ACME - ACME TRADING COMPANY.pdf")];
              UpperCaseApp.shown := [] |}
           [(lit "a.pdf", invoice_pdf)]
           [(lit "ACME - ACME TRADING COMPANY.pdf", invoice_pdf)] []);
    [discriminate | reflexivity].
Defined.
